(** * Exodus text inserter: a shallow embedding of [inserter.py]

    The development follows the script top to bottom: Python values and the
    few built-ins the script relies on, then [characterReplacer],
    [encodeTextsAndPointers], [writeROM] and the [__main__] block, and last
    the properties of the encoder, the pointer table and the capacity
    check. *)

From Stdlib Require Import ZArith Lia String.
From stdpp Require Import base option list gmap.

Local Open Scope Z_scope.

(** ** Python values

    A [str] is a sequence of code points, a [bytes]/[bytearray] a sequence
    of integers in [0..255], an [int] is unbounded. *)

Abbreviation pystr := (list Z) (only parsing).
Abbreviation pybytes := (list Z) (only parsing).

(** Code points of a string literal whose characters are all ASCII. *)
Fixpoint str (s : string) : pystr :=
  match s with
  | EmptyString => []
  | String a s' => Z.of_N (Ascii.N_of_ascii a) :: str s'
  end.

(** ** Exceptions *)

Inductive exn : Type :=
  | IndexError
  | ValueError
  | OSError
  | SystemExit (code : Z).

Inductive result (A : Type) : Type :=
  | Ok (a : A)
  | Raise (e : exn).

Arguments Ok {A} a.
Arguments Raise {A} e.

#[global] Instance result_ret : MRet result := λ A a, Ok a.
#[global] Instance result_bind : MBind result := λ A B f m,
  match m with
  | Ok a => f a
  | Raise e => Raise e
  end.

(** A [for] loop whose body may raise: left to right, first exception wins. *)
Fixpoint foldM {A B : Type} (f : A → B → result A) (a : A) (l : list B) : result A :=
  match l with
  | [] => Ok a
  | x :: l' => a' ← f a x; foldM f a' l'
  end.

(** ** Built-ins *)

(** [s[:-1]] *)
Definition slice_init (s : pystr) : pystr := take (length s - 1)%nat s.

(** [s[-1:]] *)
Definition slice_last (s : pystr) : pystr := drop (length s - 1)%nat s.

(** [l.pop()], keeping the list and dropping the popped value. *)
Definition list_pop {A : Type} (l : list A) : result (list A) :=
  match l with
  | [] => Raise IndexError
  | _ :: _ => Ok (take (length l - 1)%nat l)
  end.

(** [b.append(x)]: a bytearray takes integers in [range(256)] only. *)
Definition bytearray_append (b : pybytes) (x : Z) : result pybytes :=
  if bool_decide (0 ≤ x < 256) then Ok (b ++ [x]) else Raise ValueError.

(** UTF-8 encoding of one code point under [errors='ignore']: a surrogate
    cannot be encoded and is dropped. Values outside [0..0x10FFFF] are not
    code points of any [str]; they encode to nothing here. *)
Definition utf8_char (c : Z) : pybytes :=
  if c <? 0 then []
  else if c <? 0x80 then [c]
  else if c <? 0x800 then
    [Z.lor 0xC0 (Z.shiftr c 6); Z.lor 0x80 (Z.land c 0x3F)]
  else if (0xD800 <=? c) && (c <=? 0xDFFF) then []
  else if c <? 0x10000 then
    [Z.lor 0xE0 (Z.shiftr c 12);
     Z.lor 0x80 (Z.land (Z.shiftr c 6) 0x3F);
     Z.lor 0x80 (Z.land c 0x3F)]
  else if c <? 0x110000 then
    [Z.lor 0xF0 (Z.shiftr c 18);
     Z.lor 0x80 (Z.land (Z.shiftr c 12) 0x3F);
     Z.lor 0x80 (Z.land (Z.shiftr c 6) 0x3F);
     Z.lor 0x80 (Z.land c 0x3F)]
  else [].

(** [s.encode('utf-8', errors='ignore')] *)
Definition encode (s : pystr) : pybytes := flat_map utf8_char s.

(** [len(b)] as a Python int. *)
Definition len {A : Type} (l : list A) : Z := Z.of_nat (length l).

(** ** characterReplacer *)

Definition replacement_dict : gmap Z Z :=
  list_to_map
    [ (0x3F, 0x23)   (* '?' : '#' *)
    ; (0xBF, 0x24)   (* inverted question mark : '$' *)
    ; (0xE1, 0x25)   (* a acute : '%' *)
    ; (0xE9, 0x4B)   (* e acute : 'K' *)
    ; (0xED, 0x57)   (* i acute : 'W' *)
    ; (0xF3, 0x58)   (* o acute : 'X' *)
    ; (0xFA, 0x77)   (* u acute : 'w' *)
    ; (0xF1, 0x29)   (* n tilde : ')' *)
    ; (0xC1, 0x27)   (* A acute : ''' *)
    ; (0xC9, 0x28)   (* E acute : '(' *)
    ].

(** [d.get(k, default)] *)
Definition dict_get (d : gmap Z Z) (k default : Z) : Z :=
  match d !! k with
  | Some v => v
  | None => default
  end.

(** The body of the loop: [''.join(replacement_dict.get(char, char) for char in text)]. *)
Definition replace_text (text : pystr) : pystr :=
  (λ char, dict_get replacement_dict char char) <$> text.

Definition characterReplacer (textList : list pystr) : list pystr :=
  replace_text <$> textList.

(** ** encodeTextsAndPointers *)

(** The three locals the [for text in texts] loop updates. *)
Definition enc_state : Type := pybytes * Z * list Z.

Definition encode_step (textStartOffset : Z) (st : enc_state) (text : pystr) : enc_state :=
  let '(encodedData, totalBytes, pointers) := st in
  let textContent := slice_init text in
  let breaker := slice_last text in
  let encodedData := encodedData ++ encode textContent in
  let encodedData := encodedData ++ encode breaker in
  let totalBytes := totalBytes + (len (encode textContent) + len (encode breaker)) in
  let pointers := pointers ++ [textStartOffset + totalBytes] in
  (encodedData, totalBytes, pointers).

(** [((ptr >> 8) & 0xFF) | ((ptr & 0xFF) << 8)] *)
Definition reverse_bytes (ptr : Z) : Z :=
  Z.lor (Z.land (Z.shiftr ptr 8) 0xFF) (Z.shiftl (Z.land ptr 0xFF) 8).

(** The body of [for ptr in pointers]: two appends, most significant first. *)
Definition emit_pointer (pointersData : pybytes) (ptr : Z) : result pybytes :=
  pointersData ← bytearray_append pointersData (Z.land (Z.shiftr ptr 8) 0xFF);
  bytearray_append pointersData (Z.land ptr 0xFF).

Definition encodeTextsAndPointers (texts : list pystr) (textStartOffset pointersDistance : Z)
  : result (pybytes * Z * pybytes) :=
  let '(encodedData, totalBytes, pointers) :=
    fold_left (encode_step textStartOffset) texts ([], 0, [textStartOffset]) in
  pointers ← list_pop pointers;
  let pointers := (λ ptr, ptr - pointersDistance) <$> pointers in
  let pointers := reverse_bytes <$> pointers in
  pointersData ← foldM emit_pointer [] pointers;
  Ok (encodedData, totalBytes, pointersData).


(** ** The script's effects: standard output and the ROM file *)

(** What the script prints, one constructor per format string. *)
Inductive message : Type :=
  | MsgLimitExceeded
      (* ERROR: The number of bytes read exceeds the maximum block limit. *)
  | MsgRemove (excess : Z) (txtFile : string)
      (* Remove {excess} bytes from {txtFile} file. *)
  | MsgTextWritten (offset : Z)
      (* Text written at offset {hex(TEXTSTARTOFFSET)}. *)
  | MsgPointersWritten (offset count : Z)
      (* Pointers table written at offset {hex(...)} with {count} pointers. *)
  | MsgFreeSpace (freeBytes : Z)
      (* Free space: {freeBytes} bytes remaining. *)
  | MsgDataWritten (romFile : string).
      (* Data written to {romFile} successfully. *)

(** The ROM file exists and [rom] is its content. *)
Record world : Type := World { stdout : list message; rom : pybytes }.

Definition prog (A : Type) : Type := world → result A * world.

#[global] Instance prog_ret : MRet prog := λ A a w, (Ok a, w).
#[global] Instance prog_bind : MBind prog := λ A B f m w,
  match m w with
  | (Ok a, w') => f a w'
  | (Raise e, w') => (Raise e, w')
  end.

Definition lift {A : Type} (r : result A) : prog A := λ w, (r, w).

(** [sys.stdout.write] and [print] *)
Definition print (m : message) : prog unit :=
  λ w, (Ok tt, World (stdout w ++ [m]) (rom w)).

(** [sys.exit(code)] *)
Definition sys_exit (code : Z) : prog unit :=
  λ w, (Raise (SystemExit code), w).

(** [f.seek(pos); f.write(data)] on a file opened ["r+b"]: the bytes at
    [pos..] are overwritten, a gap past the end of the file reads as zeros;
    writing no byte leaves the file as it is, wherever [pos] lies. *)
Definition file_write (f : pybytes) (pos : nat) (data : pybytes) : pybytes :=
  match data with
  | [] => f
  | _ :: _ =>
      take pos f ++ replicate (pos - length f) 0 ++ data ++ drop (pos + length data) f
  end.

(** ** writeROM

    [f.seek] refuses a negative offset with [OSError] and an offset that
    does not fit the 64-bit file offset with [ValueError], in both cases
    before anything is written. The ROM file exists and can be opened for
    update; an offset that fits but that the file system refuses, and a
    full disk, are outside this model. *)

Definition writeROM (romFile : string) (startOffset : Z) (data : pybytes) : prog unit :=
  λ w,
    if startOffset <? 0 then (Raise OSError, w)
    else if 2 ^ 63 <=? startOffset then (Raise ValueError, w)
    else (Ok tt, World (stdout w) (file_write (rom w) (Z.to_nat startOffset) data)).

(** ** The [__main__] block

    [txtFile] and [romFile] are [sys.argv[1]] and [sys.argv[2]];
    [lengthText] and [text] are what [readTextFile txtFile] returned. *)

Definition TEXTSTARTOFFSET : Z := 0x1007B.
Definition POINTERSSTARTOFFSET : Z := 0x144F4.
Definition POINTERSDISTANCE : Z := 0x8010.

Definition main (txtFile romFile : string) (lengthText : Z) (text : list pystr) : prog unit :=
  let replacedText := characterReplacer text in
  '(encodedData, totalBytes, pointersList) ←
    lift (encodeTextsAndPointers replacedText TEXTSTARTOFFSET POINTERSDISTANCE);
  _ ← (if bool_decide (len encodedData > lengthText) then
         let excess := len encodedData - lengthText in
         _ ← print MsgLimitExceeded;
         _ ← print (MsgRemove excess txtFile);
         sys_exit 1
       else mret tt);
  let freeBytes := lengthText - len encodedData in
  _ ← writeROM romFile TEXTSTARTOFFSET encodedData;
  _ ← writeROM romFile POINTERSSTARTOFFSET pointersList;
  _ ← print (MsgTextWritten TEXTSTARTOFFSET);
  _ ← print (MsgPointersWritten POINTERSSTARTOFFSET (len pointersList / 2));
  _ ← print (MsgFreeSpace freeBytes);
  print (MsgDataWritten romFile).

(** ** readTextFile

    The file is opened in text mode with [encoding='iso-8859-1']: byte [b]
    decodes to code point [b], and with the default [newline=None] every
    ["\r\n"] and every lone ["\r"] is read as ["\n"]. [txt] is the content
    of the file, which exists. *)

(** Universal newlines, as text mode applies them on reading. *)
Fixpoint universal_newlines (s : pystr) : pystr :=
  match s with
  | [] => []
  | c :: s' =>
      if c =? 13 then
        10 :: match s' with
              | [] => []
              | d :: s'' => if d =? 10 then universal_newlines s'' else universal_newlines s'
              end
      else c :: universal_newlines s'
  end.

(** The lines of a text file, each with its ["\n"] when it has one; [cur]
    is the part of the current line already read. *)
Fixpoint lines_from (cur s : pystr) : list pystr :=
  match s with
  | [] => match cur with [] => [] | _ :: _ => [cur] end
  | c :: s' => if c =? 10 then (cur ++ [c]) :: lines_from [] s' else lines_from (cur ++ [c]) s'
  end.

Definition file_lines (txt : pybytes) : list pystr := lines_from [] (universal_newlines txt).

(** [c.isspace()] for one character: the code points CPython treats as
    whitespace. *)
Definition isspace (c : Z) : bool :=
  ((0x09 <=? c) && (c <=? 0x0D)) || ((0x1C <=? c) && (c <=? 0x20))
  || (c =? 0x85) || (c =? 0xA0) || (c =? 0x1680)
  || ((0x2000 <=? c) && (c <=? 0x200A))
  || (c =? 0x2028) || (c =? 0x2029) || (c =? 0x202F) || (c =? 0x205F) || (c =? 0x3000).

(** [s.lstrip()] *)
Fixpoint lstrip (s : pystr) : pystr :=
  match s with
  | [] => []
  | c :: s' => if isspace c then lstrip s' else s
  end.

(** [s.rstrip()] *)
Definition rstrip (s : pystr) : pystr := reverse (lstrip (reverse s)).

(** [s.strip()] *)
Definition strip (s : pystr) : pystr := rstrip (lstrip s).

(** What [readTextFile] prints. *)
Inductive read_message : Type :=
  | MsgTextLengthNotFound.
      (* Text length not found. *)

(** [int] is the interpreter's [int(str)], [None] standing for
    [ValueError]; which strings it accepts (signs, underscores, the limit
    on the number of digits) depends on the interpreter and is left open.
    The result is what was printed and what the call returned or raised;
    [readline()] at the end of the file gives the empty string. *)
Definition readTextFile (int : pystr → option Z) (txt : pybytes)
  : list read_message * result (Z * list pystr) :=
  let f := file_lines txt in
  let firstLine := hd [] f in
  match int firstLine with
  | None => ([MsgTextLengthNotFound], Raise (SystemExit 1))
  | Some value => ([], Ok (value, strip <$> tl f))
  end.

(** * Vocabulary of the properties

    Names for what the statements below talk about: the Encoded Block,
    record offsets, the stored form of a pointer and its decoding, and the
    two outcomes of a run. *)

(** The Encoded Block: every record's bytes, in input order. *)
Definition encoded_block (texts : list pystr) : pybytes := flat_map encode texts.

(** Bytes emitted for the records before record [i]. *)
Definition bytes_before (texts : list pystr) (i : nat) : Z :=
  len (encoded_block (take i texts)).

(** What the loop appends to [pointers]: the offset after each record. *)
Fixpoint running_offsets (start total : Z) (texts : list pystr) : list Z :=
  match texts with
  | [] => []
  | t :: ts =>
      (start + (total + len (encode t))) :: running_offsets start (total + len (encode t)) ts
  end.

(** The offset at which each record starts. *)
Fixpoint record_starts (start total : Z) (texts : list pystr) : list Z :=
  match texts with
  | [] => []
  | t :: ts => (start + total) :: record_starts start (total + len (encode t)) ts
  end.

(** The two bytes the emission loop appends for one list element. *)
Definition emitted (ptr : Z) : pybytes :=
  [Z.land (Z.shiftr ptr 8) 0xFF; Z.land ptr 0xFF].

(** The stored form of one raw pointer: distance correction, swap, emit. *)
Definition pointer_bytes (pointersDistance raw : Z) : pybytes :=
  emitted (reverse_bytes (raw - pointersDistance)).

(** Number of pointers in a table, counted as the script's summary line
    counts them: [len(pointersList)//2]. *)
Definition pointer_count (pointersData : pybytes) : Z := len pointersData / 2.

(** Entry [i] of the table read most significant byte first: the element
    of [pointers] that the emission loop wrote there. *)
Definition stored_pointer (pointersData : pybytes) (i : nat) : option Z :=
  hi ← pointersData !! (2 * i)%nat;
  lo ← pointersData !! (2 * i + 1)%nat;
  Some (hi * 256 + lo).

(** Pointer [i] decoded: reverse the byte swap, add the distance back. *)
Definition decode_pointer (pointersData : pybytes) (i : nat) (pointersDistance : Z) : option Z :=
  p ← stored_pointer pointersData i;
  Some (reverse_bytes p + pointersDistance).

(** The corrected pointer of record [i]: [raw_pointer - distance]. *)
Definition corrected (texts : list pystr) (start dist : Z) (i : nat) : Z :=
  start + bytes_before texts i - dist.

(** The pointer table the script writes for [text]. *)
Definition pointer_table (text : list pystr) : pybytes :=
  flat_map (pointer_bytes POINTERSDISTANCE)
           (record_starts TEXTSTARTOFFSET 0 (characterReplacer text)).

(** The run that stops at the capacity check. *)
Definition capacity_exceeded (txtFile : string) (excess : Z) (w : world)
  : result unit * world :=
  (Raise (SystemExit 1),
   World (stdout w ++ [MsgLimitExceeded; MsgRemove excess txtFile]) (rom w)).

(** The run that patches the ROM and prints the summary. *)
Definition patched (romFile : string) (text : list pystr) (freeBytes : Z) (w : world)
  : result unit * world :=
  (Ok tt,
   World (stdout w ++ [MsgTextWritten TEXTSTARTOFFSET;
                       MsgPointersWritten POINTERSSTARTOFFSET (len text);
                       MsgFreeSpace freeBytes;
                       MsgDataWritten romFile])
         (file_write
            (file_write (rom w) (Z.to_nat TEXTSTARTOFFSET)
                        (encoded_block (characterReplacer text)))
            (Z.to_nat POINTERSSTARTOFFSET) (pointer_table text))).

(** Bytes that one input character contributes to the Encoded Block
    according to the table: the replacement byte, or else the
    character's own UTF-8 encoding. *)
Definition char_bytes (c : Z) : pybytes :=
  match replacement_dict !! c with
  | Some v => [v]
  | None => utf8_char c
  end.

(** One record of 32661 letters 'a', then the record "b". *)
Definition long_texts : list pystr := [replicate (Z.to_nat 32661) 97; str "b"].



(** A byte, as a [bytes] object or a file holds it. *)
Definition is_byte (b : Z) : Prop := 0 ≤ b < 256.

(** A code point that UTF-8 can encode: in range and no surrogate. *)
Definition encodable (c : Z) : bool :=
  (0 <=? c) && (c <? 0x110000) && negb ((0xD800 <=? c) && (c <=? 0xDFFF)).

(** A UTF-8 decoder for well-formed input, the direction the script does
    not have: the lead byte gives the length of the sequence. *)
Fixpoint utf8_decode (bs : pybytes) : pystr :=
  match bs with
  | [] => []
  | b0 :: r0 =>
      if b0 <? 0x80 then b0 :: utf8_decode r0
      else match r0 with
      | [] => []
      | b1 :: r1 =>
          if b0 <? 0xE0 then ((b0 - 0xC0) * 64 + (b1 - 0x80)) :: utf8_decode r1
          else match r1 with
          | [] => []
          | b2 :: r2 =>
              if b0 <? 0xF0 then
                ((b0 - 0xE0) * 4096 + (b1 - 0x80) * 64 + (b2 - 0x80)) :: utf8_decode r2
              else match r2 with
              | [] => []
              | b3 :: r3 =>
                  ((b0 - 0xF0) * 262144 + (b1 - 0x80) * 4096 + (b2 - 0x80) * 64 + (b3 - 0x80))
                  :: utf8_decode r3
              end
          end
      end
  end.

(** A stand-in for [int] in the examples below. It is defined on one to
    eighteen decimal digits, optionally followed by one line feed, and
    returns there what [int] returns; every other string is refused,
    although [int] accepts more (signs, underscores, other whitespace). *)
Definition digits_int (s : pystr) : option Z :=
  let digits := if bool_decide (last s = Some 10) then take (length s - 1)%nat s else s in
  if bool_decide (0 < length digits ≤ 18)%nat then
    foldl (λ acc c, n ← acc; if (48 <=? c) && (c <=? 57) then Some (n * 10 + (c - 48)) else None)
          (Some 0) digits
  else None.

(** * Properties *)

(** ** Slices and encoding *)

Lemma slice_init_last (s : pystr) : slice_init s ++ slice_last s = s.
Proof. unfold slice_init, slice_last. apply take_drop. Qed.

Lemma encode_app (s t : pystr) : encode (s ++ t) = encode s ++ encode t.
Proof. unfold encode. apply flat_map_app. Qed.

Lemma encode_slices (s : pystr) :
  encode (slice_init s) ++ encode (slice_last s) = encode s.
Proof. by rewrite <- encode_app, slice_init_last. Qed.

Lemma len_app {A : Type} (l k : list A) : len (l ++ k) = len l + len k.
Proof. unfold len. rewrite length_app. lia. Qed.

Lemma len_slices (s : pystr) :
  len (encode (slice_init s)) + len (encode (slice_last s)) = len (encode s).
Proof. by rewrite <- len_app, encode_slices. Qed.

Lemma slice_last_snoc (s : pystr) (c : Z) : slice_last (s ++ [c]) = [c].
Proof.
  unfold slice_last. rewrite length_app. simpl.
  replace (length s + 1 - 1)%nat with (length s) by lia.
  by rewrite drop_app_length.
Qed.

Lemma slice_init_snoc (s : pystr) (c : Z) : slice_init (s ++ [c]) = s.
Proof.
  unfold slice_init. rewrite length_app. simpl.
  replace (length s + 1 - 1)%nat with (length s) by lia.
  by rewrite take_app_length.
Qed.

(** ** The encoding loop *)

Lemma fold_encode_step (start : Z) (texts : list pystr) :
  ∀ (enc : pybytes) (total : Z) (ptrs : list Z),
    fold_left (encode_step start) texts (enc, total, ptrs)
    = (enc ++ encoded_block texts,
       total + len (encoded_block texts),
       ptrs ++ running_offsets start total texts).
Proof.
  induction texts as [|t ts IH]; intros enc total ptrs.
  - simpl. unfold len. simpl. by rewrite !app_nil_r, Z.add_0_r.
  - cbn [fold_left]. unfold encode_step at 2. rewrite IH.
    unfold encoded_block. cbn [flat_map running_offsets].
    rewrite !len_slices, len_app, <- (app_assoc enc), encode_slices, <- !app_assoc.
    simpl. do 2 f_equal. lia.
Qed.

Lemma length_running_offsets (start total : Z) (texts : list pystr) :
  length (running_offsets start total texts) = length texts.
Proof. revert total. induction texts; intros; simpl; auto. Qed.

Lemma length_record_starts (start total : Z) (texts : list pystr) :
  length (record_starts start total texts) = length texts.
Proof. revert total. induction texts; intros; simpl; auto. Qed.

(** Dropping the last running offset behind the seed leaves the starts. *)
Lemma pop_running_offsets (start : Z) (texts : list pystr) :
  ∀ total : Z,
    list_pop ((start + total) :: running_offsets start total texts)
    = Ok (record_starts start total texts).
Proof.
  induction texts as [|t ts IH]; intros total; [done|].
  specialize (IH (total + len (encode t))).
  cbn [running_offsets record_starts]. unfold list_pop in *.
  injection IH as IH. f_equal.
  cbn [length] in *. rewrite Nat.sub_succ, Nat.sub_0_r in *.
  rewrite firstn_cons. f_equal. exact IH.
Qed.

Lemma record_starts_lookup (start : Z) (texts : list pystr) :
  ∀ (total : Z) (i : nat),
    (i < length texts)%nat →
    record_starts start total texts !! i = Some (start + (total + bytes_before texts i)).
Proof.
  unfold bytes_before, encoded_block.
  induction texts as [|t ts IH]; intros total i Hi; simpl in Hi; [lia|].
  destruct i as [|i]; simpl.
  - unfold len. simpl. do 2 f_equal. lia.
  - rewrite IH by lia. rewrite len_app. do 2 f_equal. lia.
Qed.

(** ** Bytes of a pointer *)

Lemma land_FF (x : Z) : Z.land x 0xFF = x mod 256.
Proof. change 0xFF with (Z.ones 8). by rewrite Z.land_ones. Qed.

Lemma shiftr_8 (x : Z) : Z.shiftr x 8 = x / 256.
Proof. by rewrite Z.shiftr_div_pow2. Qed.

Lemma shiftl_8 (x : Z) : Z.shiftl x 8 = x * 256.
Proof. by rewrite Z.shiftl_mul_pow2. Qed.

Lemma land_FF_range (x : Z) : 0 ≤ Z.land x 0xFF < 256.
Proof. rewrite land_FF. apply Z.mod_pos_bound. lia. Qed.

(** A byte and a value shifted past it share no bit. *)
Lemma land_byte_shiftl (a b : Z) : 0 ≤ a < 256 → Z.land a (Z.shiftl b 8) = 0.
Proof.
  intros Ha. apply Z.bits_inj'. intros n Hn.
  rewrite Z.land_spec, Z.bits_0.
  destruct (Z.lt_ge_cases n 8) as [Hlt|Hge].
  - rewrite Z.shiftl_spec_low by lia. apply andb_false_r.
  - rewrite <- (Z.mod_small a (2 ^ 8)) by lia.
    rewrite Z.mod_pow2_bits_high by lia. done.
Qed.

Lemma lor_byte_shiftl (a b : Z) : 0 ≤ a < 256 → Z.lor a (Z.shiftl b 8) = a + b * 256.
Proof.
  intros Ha. pose proof (land_byte_shiftl a b Ha) as Hdisj.
  rewrite <- Z.lxor_lor, <- Z.add_nocarry_lxor by exact Hdisj.
  by rewrite shiftl_8.
Qed.

Lemma reverse_bytes_arith (c : Z) :
  reverse_bytes c = (c / 256) mod 256 + (c mod 256) * 256.
Proof.
  unfold reverse_bytes.
  rewrite lor_byte_shiftl by apply land_FF_range.
  by rewrite !land_FF, shiftr_8.
Qed.

(** Swap, then most significant first: the low byte of the corrected
    pointer comes out first, bits 8..15 second. *)
Lemma emitted_reverse_bytes (c : Z) :
  emitted (reverse_bytes c) = [c mod 256; (c / 256) mod 256].
Proof.
  unfold emitted. rewrite !land_FF, shiftr_8, reverse_bytes_arith.
  f_equal; [|f_equal].
  - rewrite Z.div_add by lia. rewrite Z.div_small by (apply Z.mod_pos_bound; lia).
    rewrite Z.add_0_l. apply Z.mod_mod. lia.
  - rewrite Z.mod_add by lia. apply Z.mod_mod. lia.
Qed.

Lemma emit_pointer_ok (acc : pybytes) (ptr : Z) :
  emit_pointer acc ptr = Ok (acc ++ emitted ptr).
Proof.
  unfold emit_pointer, bytearray_append, emitted.
  rewrite !bool_decide_eq_true_2 by apply land_FF_range.
  simpl. by rewrite <- app_assoc.
Qed.

Lemma foldM_emit_pointer (ptrs : list Z) :
  ∀ acc : pybytes, foldM emit_pointer acc ptrs = Ok (acc ++ flat_map emitted ptrs).
Proof.
  induction ptrs as [|p ps IH]; intros acc; simpl.
  - by rewrite app_nil_r.
  - rewrite emit_pointer_ok. simpl. rewrite IH. by rewrite <- !app_assoc.
Qed.

Lemma flat_map_emitted (pointersDistance : Z) (raws : list Z) :
  flat_map emitted (reverse_bytes <$> ((λ ptr, ptr - pointersDistance) <$> raws))
  = flat_map (pointer_bytes pointersDistance) raws.
Proof. induction raws as [|r rs IH]; [done|]. cbn. by rewrite <- IH. Qed.

(** The function never raises, and this is what it returns. *)
Lemma encodeTextsAndPointers_eq (texts : list pystr) (start dist : Z) :
  encodeTextsAndPointers texts start dist
  = Ok (encoded_block texts,
        len (encoded_block texts),
        flat_map (pointer_bytes dist) (record_starts start 0 texts)).
Proof.
  unfold encodeTextsAndPointers. rewrite fold_encode_step.
  pose proof (pop_running_offsets start texts 0) as Hpop.
  rewrite Z.add_0_r in Hpop. cbn [app]. rewrite Hpop. cbn [mbind result_bind].
  rewrite foldM_emit_pointer, flat_map_emitted. done.
Qed.

Lemma length_flat_map_pairs {A : Type} (f : A → list Z) (l : list A) :
  (∀ a, length (f a) = 2%nat) → length (flat_map f l) = (2 * length l)%nat.
Proof.
  intros Hf. induction l as [|a l IH]; [done|].
  cbn [flat_map]. rewrite length_app, Hf, IH. simpl. lia.
Qed.

Lemma lookup_flat_map_pairs {A : Type} (f : A → list Z) (g h : A → Z) (l : list A) :
  (∀ a, f a = [g a; h a]) →
  ∀ (i : nat) (a : A),
    l !! i = Some a →
    flat_map f l !! (2 * i)%nat = Some (g a)
    ∧ flat_map f l !! (2 * i + 1)%nat = Some (h a).
Proof.
  intros Hf. induction l as [|b l IH]; intros i a Hi; [done|].
  cbn [flat_map]. rewrite Hf. destruct i as [|i].
  - simpl in Hi. injection Hi as ->. done.
  - simpl in Hi. destruct (IH i a Hi) as [H0 H1].
    replace (2 * S i)%nat with (S (S (2 * i))) by lia.
    replace (S (S (2 * i)) + 1)%nat with (S (S (2 * i + 1))) by lia.
    done.
Qed.

(** ** Reading a pointer table back *)

Lemma corrected_eq (texts : list pystr) (start dist : Z) (i : nat) :
  corrected texts start dist i = start + bytes_before texts i - dist.
Proof. reflexivity. Qed.

Lemma length_pointer_table (texts : list pystr) (start dist : Z) :
  length (flat_map (pointer_bytes dist) (record_starts start 0 texts))
  = (2 * length texts)%nat.
Proof. by rewrite length_flat_map_pairs, length_record_starts. Qed.

(** The table holds, for record [i], the low byte of its corrected pointer
    and then bits 8..15. *)
Lemma pointer_table_lookup (texts : list pystr) (start dist : Z) (i : nat) :
  (i < length texts)%nat →
  let table := flat_map (pointer_bytes dist) (record_starts start 0 texts) in
  let c := corrected texts start dist i in
  table !! (2 * i)%nat = Some (c mod 256)
  ∧ table !! (2 * i + 1)%nat = Some ((c / 256) mod 256).
Proof.
  intros Hi table c.
  pose proof (record_starts_lookup start texts 0 i Hi) as Hraw.
  rewrite Z.add_0_l in Hraw.
  apply (lookup_flat_map_pairs (pointer_bytes dist)
           (λ raw, (raw - dist) mod 256) (λ raw, ((raw - dist) / 256) mod 256)) in Hraw.
  - exact Hraw.
  - intros raw. unfold pointer_bytes. apply emitted_reverse_bytes.
Qed.

(** Two bytes, low one first, are the value modulo 2^16. *)
Lemma low_16_bits (c : Z) : c mod 256 + 256 * ((c / 256) mod 256) = c mod 65536.
Proof.
  change 65536 with (256 * 256).
  rewrite Z.rem_mul_r by lia. reflexivity.
Qed.

Lemma reverse_bytes_stored (c : Z) :
  reverse_bytes ((c mod 256) * 256 + (c / 256) mod 256) = c mod 65536.
Proof.
  rewrite reverse_bytes_arith, <- low_16_bits.
  pose proof (Z.mod_pos_bound c 256 ltac:(lia)) as Hlo.
  pose proof (Z.mod_pos_bound (c / 256) 256 ltac:(lia)) as Hhi.
  generalize dependent (c mod 256). generalize dependent ((c / 256) mod 256).
  intros hi Hhi lo Hlo.
  assert ((lo * 256 + hi) / 256 = lo) as -> by (Z.div_mod_to_equations; lia).
  assert ((lo * 256 + hi) mod 256 = hi) as -> by (Z.div_mod_to_equations; lia).
  rewrite Z.mod_small by lia. lia.
Qed.

Lemma decode_pointer_table (texts : list pystr) (start dist : Z) (i : nat) :
  (i < length texts)%nat →
  decode_pointer (flat_map (pointer_bytes dist) (record_starts start 0 texts)) i dist
  = Some (corrected texts start dist i mod 65536 + dist).
Proof.
  intros Hi. destruct (pointer_table_lookup texts start dist i Hi) as [H0 H1].
  unfold decode_pointer, stored_pointer. rewrite H0, H1. simpl.
  by rewrite reverse_bytes_stored.
Qed.

(** ** What the script does as a whole *)

Lemma pointer_count_table (texts : list pystr) (start dist : Z) :
  pointer_count (flat_map (pointer_bytes dist) (record_starts start 0 texts)) = len texts.
Proof.
  unfold pointer_count, len. rewrite length_pointer_table.
  rewrite Nat2Z.inj_mul, Z.mul_comm. by apply Z.div_mul.
Qed.

Lemma writeROM_ok (romFile : string) (startOffset : Z) (data : list Z) (w : world) :
  0 ≤ startOffset < 2 ^ 63 →
  writeROM romFile startOffset data w
  = (Ok tt, World (stdout w) (file_write (rom w) (Z.to_nat startOffset) data)).
Proof.
  intros Hoff. unfold writeROM.
  by rewrite (proj2 (Z.ltb_ge startOffset 0)), (proj2 (Z.leb_gt (2 ^ 63) startOffset)) by lia.
Qed.

Lemma main_eq (txtFile romFile : string) (lengthText : Z) (text : list pystr) (w : world) :
  main txtFile romFile lengthText text w
  = if bool_decide (len (encoded_block (characterReplacer text)) > lengthText)
    then capacity_exceeded txtFile
           (len (encoded_block (characterReplacer text)) - lengthText) w
    else patched romFile text
           (lengthText - len (encoded_block (characterReplacer text))) w.
Proof.
  unfold main. rewrite encodeTextsAndPointers_eq.
  unfold mbind at 1, prog_bind at 1. cbn [lift].
  fold (pointer_count (flat_map (pointer_bytes POINTERSDISTANCE)
          (record_starts TEXTSTARTOFFSET 0 (characterReplacer text)))).
  rewrite pointer_count_table.
  case_bool_decide as Hcap.
  - unfold capacity_exceeded, mbind, prog_bind, print, sys_exit.
    cbn. by rewrite <- !app_assoc.
  - unfold patched, pointer_table, mbind, prog_bind, mret, prog_ret, print.
    rewrite writeROM_ok by done. cbn -[Z.to_nat file_write writeROM].
    rewrite writeROM_ok by done. cbn -[Z.to_nat file_write]. rewrite <- !app_assoc.
    unfold characterReplacer, len at 1. by rewrite length_fmap.
Qed.

(** ** The substitution table *)

(** Every replacement is an ASCII character, one byte in UTF-8. *)
Lemma replacement_ascii : map_Forall (λ _ v, 0 ≤ v < 0x80) replacement_dict.
Proof.
  unfold replacement_dict. cbn [list_to_map foldr uncurry fst snd].
  repeat (apply map_Forall_insert_2; [lia|]).
  apply map_Forall_empty.
Qed.

Lemma utf8_char_ascii (c : Z) : 0 ≤ c < 0x80 → utf8_char c = [c].
Proof.
  intros Hc. unfold utf8_char.
  destruct (Z.ltb_spec c 0); [lia|].
  destruct (Z.ltb_spec c 0x80); [done|lia].
Qed.

Lemma encode_replace_text (text : pystr) :
  encode (replace_text text) = flat_map char_bytes text.
Proof.
  unfold encode, replace_text.
  induction text as [|c text IH]; [done|].
  cbn [fmap list_fmap flat_map]. f_equal; [|exact IH].
  unfold dict_get, char_bytes.
  destruct (replacement_dict !! c) as [v|] eqn:Hc; [|done].
  apply utf8_char_ascii. exact (replacement_ascii c v Hc).
Qed.

Lemma encoded_block_replaced (texts : list pystr) :
  encoded_block (characterReplacer texts) = flat_map (flat_map char_bytes) texts.
Proof.
  unfold encoded_block, characterReplacer.
  induction texts as [|t ts IH]; [done|].
  cbn [fmap list_fmap flat_map]. by rewrite encode_replace_text, <- IH.
Qed.

(** * The pointer table *)

(** C1, as stated, fails: the claim gives N-1 pointers for N records, but
    for the two records "Hi!" and "Bye." the table holds two pointers
    (four bytes), not one. The loop appends one offset per record to a
    list seeded with one element, and a single [pop] follows. *)
Lemma two_records_two_pointers :
  ¬ (∃ enc total table,
       encodeTextsAndPointers [str "Hi!"; str "Bye."] TEXTSTARTOFFSET POINTERSDISTANCE
       = Ok (enc, total, table)
       ∧ pointer_count table = len [str "Hi!"; str "Bye."] - 1).
Proof.
  intros (enc & total & table & Hrun & Hcount).
  vm_compute in Hrun. injection Hrun as <- <- <-.
  vm_compute in Hcount. discriminate.
Qed.

(** C1, amended: for every list of N records the function returns, and the
    pointer table it builds holds exactly N pointers, two bytes each: one
    per record, the last record included. *)
Theorem pointer_count_is_record_count (texts : list pystr) (start dist : Z) :
  ∃ enc total table,
    encodeTextsAndPointers texts start dist = Ok (enc, total, table)
    ∧ length table = (2 * length texts)%nat
    ∧ pointer_count table = len texts.
Proof.
  eexists _, _, _. split; [apply encodeTextsAndPointers_eq|]. split.
  - apply length_pointer_table.
  - apply pointer_count_table.
Qed.

Lemma length_long_texts : length long_texts = 2%nat.
Proof. reflexivity. Qed.

Lemma bytes_before_long_texts : bytes_before long_texts 1 = 32661.
Proof. vm_compute. reflexivity. Qed.

(** C2, as stated, fails with the script's own constants: after a record of
    32661 bytes the second record starts at 0x1007B + 0x7F95 = 0x18010, its
    corrected pointer 0x10000 is stored as the bytes 00 00, and decoding
    them gives 0x8010. *)
Lemma decoded_pointer_wraps :
  ¬ (∃ enc total table,
       encodeTextsAndPointers long_texts TEXTSTARTOFFSET POINTERSDISTANCE
       = Ok (enc, total, table)
       ∧ decode_pointer table 1 POINTERSDISTANCE
         = Some (TEXTSTARTOFFSET + bytes_before long_texts 1)).
Proof.
  intros (enc & total & table & Hrun & Hdec).
  rewrite encodeTextsAndPointers_eq in Hrun.
  assert (table = flat_map (pointer_bytes POINTERSDISTANCE)
                           (record_starts TEXTSTARTOFFSET 0 long_texts)) as ->
    by congruence.
  clear Hrun.
  rewrite decode_pointer_table in Hdec by (rewrite length_long_texts; lia).
  rewrite corrected_eq, bytes_before_long_texts in Hdec.
  vm_compute in Hdec. discriminate Hdec.
Qed.

(** C2, amended: for every list of records and every index [i] of a record
    whose corrected pointer [base + bytes before record i - distance] lies
    in 0..0xFFFF, pointer [i] of the table, with the byte swap reversed and
    the distance added, is [base] plus the encoded length of the records
    before [i]: the start offset of record [i]. *)
Theorem decoded_pointer_is_record_start (texts : list pystr) (start dist : Z) (i : nat) :
  (i < length texts)%nat →
  0 ≤ corrected texts start dist i ≤ 0xFFFF →
  ∃ enc total table,
    encodeTextsAndPointers texts start dist = Ok (enc, total, table)
    ∧ decode_pointer table i dist = Some (start + bytes_before texts i).
Proof.
  intros Hi Hrange. eexists _, _, _. split; [apply encodeTextsAndPointers_eq|].
  rewrite decode_pointer_table by exact Hi.
  rewrite Z.mod_small by lia. unfold corrected. f_equal. lia.
Qed.

Lemma decoded_pointer_is_record_start_witness :
  ∃ enc total table,
    encodeTextsAndPointers [str "Hi!"; str "Bye."] TEXTSTARTOFFSET POINTERSDISTANCE
    = Ok (enc, total, table)
    ∧ decode_pointer table 1 POINTERSDISTANCE
      = Some (TEXTSTARTOFFSET + bytes_before [str "Hi!"; str "Bye."] 1).
Proof.
  apply (decoded_pointer_is_record_start [str "Hi!"; str "Bye."]
           TEXTSTARTOFFSET POINTERSDISTANCE 1).
  - simpl. lia.
  - vm_compute. split; discriminate.
Defined.

(** ** Byte order *)





(** C5: a corrected pointer outside 0..0xFFFF, negative ones included, is
    no error: the function returns, and the two bytes stored for the
    record are the low byte and then the high byte of the corrected value
    reduced modulo 2^16. *)
Theorem out_of_range_pointer_truncated (texts : list pystr) (start dist : Z) (i : nat) :
  (i < length texts)%nat →
  corrected texts start dist i < 0 ∨ 0xFFFF < corrected texts start dist i →
  ∃ enc total table lo hi,
    encodeTextsAndPointers texts start dist = Ok (enc, total, table)
    ∧ table !! (2 * i)%nat = Some lo
    ∧ table !! (2 * i + 1)%nat = Some hi
    ∧ 0 ≤ lo < 256 ∧ 0 ≤ hi < 256
    ∧ lo + 256 * hi = corrected texts start dist i mod 2 ^ 16.
Proof.
  intros Hi _. destruct (pointer_table_lookup texts start dist i Hi) as [H0 H1].
  eexists _, _, _, _, _. split; [apply encodeTextsAndPointers_eq|].
  split; [exact H0|]. split; [exact H1|].
  split; [apply Z.mod_pos_bound; lia|]. split; [apply Z.mod_pos_bound; lia|].
  apply low_16_bits.
Qed.

Lemma out_of_range_pointer_truncated_witness :
  ∃ enc total table lo hi,
    encodeTextsAndPointers [str "Hi!"] 0x10 POINTERSDISTANCE = Ok (enc, total, table)
    ∧ table !! (2 * 0)%nat = Some lo
    ∧ table !! (2 * 0 + 1)%nat = Some hi
    ∧ 0 ≤ lo < 256 ∧ 0 ≤ hi < 256
    ∧ lo + 256 * hi = corrected [str "Hi!"] 0x10 POINTERSDISTANCE 0 mod 2 ^ 16.
Proof.
  apply (out_of_range_pointer_truncated [str "Hi!"] 0x10 POINTERSDISTANCE 0).
  - simpl. lia.
  - left. vm_compute. reflexivity.
Defined.

(** * The capacity check *)

(** C3: the run stops at the capacity check, with exit status 1 and the
    two error lines, exactly when the Encoded Block is longer than the
    declared capacity; the excess reported is its length minus the
    capacity and the ROM is left as it was. Otherwise the run patches the
    ROM and reports capacity minus length as free bytes; a capacity equal
    to the length succeeds and reports zero free bytes. *)
Theorem capacity_check (txtFile romFile : string) (lengthText : Z)
        (text : list pystr) (w : world) :
  let block := encoded_block (characterReplacer text) in
  let run := main txtFile romFile lengthText text w in
  (run.1 = Raise (SystemExit 1) ↔ len block > lengthText)
  ∧ (run.1 = Ok tt ↔ len block ≤ lengthText)
  ∧ run = (if bool_decide (len block > lengthText)
           then (Raise (SystemExit 1),
                 World (stdout w ++ [MsgLimitExceeded;
                                     MsgRemove (len block - lengthText) txtFile])
                       (rom w))
           else patched romFile text (lengthText - len block) w)
  ∧ main txtFile romFile (len block) text w = patched romFile text 0 w.
Proof.
  intros block run. subst run block.
  rewrite !main_eq. fold (capacity_exceeded txtFile
    (len (encoded_block (characterReplacer text)) - lengthText) w).
  repeat split.
  - case_bool_decide; [done|]. discriminate.
  - intros Hgt. by rewrite bool_decide_eq_true_2.
  - case_bool_decide; [discriminate|]. lia.
  - intros Hle. by rewrite bool_decide_eq_false_2 by lia.
  - rewrite bool_decide_eq_false_2 by lia. by rewrite Z.sub_diag.
Qed.

(** * Records *)

(** C6, as stated, fails: a list with an empty record between two others
    is encoded without any exception. Nothing in the loop looks at the
    length of a record; both slices of the empty string are empty. *)
Lemma empty_record_not_rejected :
  ¬ (∃ e, encodeTextsAndPointers [str "Hi!"; []; str "Bye."]
                                 TEXTSTARTOFFSET POINTERSDISTANCE = Raise e).
Proof. intros [e He]. rewrite encodeTextsAndPointers_eq in He. discriminate He. Qed.

Lemma encoded_block_app (l k : list pystr) :
  encoded_block (l ++ k) = encoded_block l ++ encoded_block k.
Proof. unfold encoded_block. apply flat_map_app. Qed.

(** C6, amended: an empty record is not rejected. The function returns;
    the record adds no byte to the Encoded Block, which is the block of the
    other records, and it still takes one entry of the pointer table. *)
Theorem empty_record_encoded (before after : list pystr) (start dist : Z) :
  ∃ table table',
    encodeTextsAndPointers (before ++ [] :: after) start dist
    = Ok (encoded_block (before ++ after), len (encoded_block (before ++ after)), table)
    ∧ encodeTextsAndPointers (before ++ after) start dist
      = Ok (encoded_block (before ++ after), len (encoded_block (before ++ after)), table')
    ∧ pointer_count table = pointer_count table' + 1.
Proof.
  eexists _, _. rewrite !encodeTextsAndPointers_eq.
  assert (encoded_block (before ++ [] :: after) = encoded_block (before ++ after)) as ->
    by (by rewrite !encoded_block_app).
  split; [reflexivity|]. split; [reflexivity|].
  rewrite !pointer_count_table. unfold len. rewrite !length_app. simpl. lia.
Qed.

(** C10: with no record at all the function returns an empty Encoded
    Block, a byte count of 0 and an empty pointer table: the seeded
    pointer is the one that [pop] removes. *)
Theorem no_records (start dist : Z) :
  characterReplacer [] = []
  ∧ fold_left (encode_step start) [] ([], 0, [start]) = ([], 0, [start])
  ∧ list_pop [start] = Ok []
  ∧ encodeTextsAndPointers [] start dist = Ok ([], 0, []).
Proof. done. Qed.

(** * The scenario of two records *)

(** C7, as stated, fails: for "Hi!" and "Bye." under capacity 100 the
    block is the seven bytes of "Hi!Bye.", not eight, the table holds two
    pointers, not one, and 93 bytes are free, not 92. *)
Lemma scenario_not_as_stated :
  ¬ (∃ enc total table w',
       encodeTextsAndPointers (characterReplacer [str "Hi!"; str "Bye."])
                              TEXTSTARTOFFSET POINTERSDISTANCE
       = Ok (enc, total, table)
       ∧ main "texts.txt" "exodus.nes" 100 [str "Hi!"; str "Bye."] (World [] []) = (Ok tt, w')
       ∧ enc = encode (str "Hi!Bye.")
       ∧ len enc = 8
       ∧ pointer_count table = 1
       ∧ MsgFreeSpace 92 ∈ stdout w').
Proof.
  intros (enc & total & table & w' & Hrun & _ & _ & Hlen & _).
  vm_compute in Hrun. injection Hrun as <- _ _.
  vm_compute in Hlen. discriminate Hlen.
Qed.

(** C7, amended: for capacity 100 and the records "Hi!" and "Bye.", none
    of whose characters is in the table, the Encoded Block is the UTF-8
    bytes of "Hi!Bye.", 7 bytes; the table has 2 pointers, which decode to
    the base offset and the base offset plus 3; 93 bytes are reported
    free. *)
Theorem scenario_two_records (w : world) :
  let text := [str "Hi!"; str "Bye."] in
  let table := [0x6B; 0x80; 0x6E; 0x80] in
  characterReplacer text = text
  ∧ encodeTextsAndPointers text TEXTSTARTOFFSET POINTERSDISTANCE
    = Ok (encode (str "Hi!Bye."), 7, table)
  ∧ len (encode (str "Hi!Bye.")) = 7
  ∧ pointer_count table = 2
  ∧ decode_pointer table 0 POINTERSDISTANCE = Some TEXTSTARTOFFSET
  ∧ decode_pointer table 1 POINTERSDISTANCE = Some (TEXTSTARTOFFSET + 3)
  ∧ main "texts.txt" "exodus.nes" 100 text w = patched "exodus.nes" text 93 w.
Proof.
  intros text table. subst text table.
  do 6 (split; [vm_compute; reflexivity|]).
  rewrite main_eq, bool_decide_eq_false_2.
  - f_equal.
  - vm_compute. discriminate.
Qed.

(** * Substitution *)

(** C8: the table has ten entries; a character of the table comes out as
    its replacement byte and any other character as its own UTF-8
    encoding ([char_bytes] is that case distinction), for single
    characters and for the whole Encoded Block. The table is applied to
    characters, before encoding: e acute gives the byte of 'K', while its
    UTF-8 bytes C3 A9 would pass the table unchanged. *)
Theorem substitution_before_encoding (texts : list pystr) (start dist : Z) :
  size replacement_dict = 10%nat
  ∧ (replacement_dict !! 0x3F = Some 0x23
     ∧ replacement_dict !! 0xBF = Some 0x24
     ∧ replacement_dict !! 0xE1 = Some 0x25
     ∧ replacement_dict !! 0xE9 = Some 0x4B
     ∧ replacement_dict !! 0xED = Some 0x57
     ∧ replacement_dict !! 0xF3 = Some 0x58
     ∧ replacement_dict !! 0xFA = Some 0x77
     ∧ replacement_dict !! 0xF1 = Some 0x29
     ∧ replacement_dict !! 0xC1 = Some 0x27
     ∧ replacement_dict !! 0xC9 = Some 0x28)
  ∧ (∀ c : Z, encode (replace_text [c]) = char_bytes c)
  ∧ (∃ total table,
       encodeTextsAndPointers (characterReplacer texts) start dist
       = Ok (flat_map (flat_map char_bytes) texts, total, table))
  ∧ encode (replace_text [0xE9]) = [0x4B]
  ∧ replace_text (encode [0xE9]) = [0xC3; 0xA9].
Proof.
  split; [vm_compute; reflexivity|].
  split; [repeat split; vm_compute; reflexivity|].
  split; [|split; [|split; vm_compute; reflexivity]].
  - intros c. rewrite encode_replace_text. simpl. apply app_nil_r.
  - eexists _, _. by rewrite encodeTextsAndPointers_eq, encoded_block_replaced.
Qed.

Lemma replace_text_snoc (content : pystr) (c v : Z) :
  replacement_dict !! c = Some v →
  replace_text (content ++ [c]) = replace_text content ++ [v].
Proof.
  intros Hc. unfold replace_text. rewrite fmap_app. simpl.
  unfold dict_get. by rewrite Hc.
Qed.

(** C9: the table is applied to the whole line, terminator included. For a
    record whose last character is in the table, the breaker that the
    encoding loop splits off is the replacement character, and the record's
    bytes end with the replacement byte. *)
Theorem terminator_is_substituted (content : pystr) (c v start dist : Z) :
  replacement_dict !! c = Some v →
  slice_init (replace_text (content ++ [c])) = replace_text content
  ∧ slice_last (replace_text (content ++ [c])) = [v]
  ∧ ∃ total table,
      encodeTextsAndPointers (characterReplacer [content ++ [c]]) start dist
      = Ok (encode (replace_text content) ++ [v], total, table).
Proof.
  intros Hc. rewrite (replace_text_snoc content c v Hc).
  split; [apply slice_init_snoc|]. split; [apply slice_last_snoc|].
  eexists _, _. rewrite encodeTextsAndPointers_eq.
  unfold characterReplacer, encoded_block. cbn [fmap list_fmap flat_map].
  rewrite (replace_text_snoc content c v Hc), app_nil_r, encode_app.
  unfold encode at 2. cbn [flat_map].
  rewrite utf8_char_ascii by exact (replacement_ascii c v Hc).
  reflexivity.
Qed.

Lemma terminator_is_substituted_witness :
  slice_init (replace_text (str "Why" ++ [0x3F])) = replace_text (str "Why")
  ∧ slice_last (replace_text (str "Why" ++ [0x3F])) = [0x23]
  ∧ ∃ total table,
      encodeTextsAndPointers (characterReplacer [str "Why" ++ [0x3F]])
                             TEXTSTARTOFFSET POINTERSDISTANCE
      = Ok (encode (replace_text (str "Why")) ++ [0x23], total, table).
Proof.
  apply (terminator_is_substituted (str "Why") 0x3F 0x23 TEXTSTARTOFFSET POINTERSDISTANCE).
  vm_compute. reflexivity.
Defined.

(** * Further properties of the encoder *)

(** ** UTF-8 bytes in arithmetic form *)

Lemma lor_shiftl_add (h x k : Z) :
  0 ≤ k → 0 ≤ x < 2 ^ k → Z.lor (Z.shiftl h k) x = h * 2 ^ k + x.
Proof.
  intros Hk Hx.
  assert (Z.land (Z.shiftl h k) x = 0) as Hdisj.
  { apply Z.bits_inj'. intros n Hn. rewrite Z.land_spec, Z.bits_0.
    destruct (Z.lt_ge_cases n k) as [Hlt|Hge].
    - by rewrite Z.shiftl_spec_low.
    - rewrite <- (Z.mod_small x (2 ^ k)) by lia.
      rewrite Z.mod_pow2_bits_high by lia. apply andb_false_r. }
  rewrite <- Z.lxor_lor, <- Z.add_nocarry_lxor by exact Hdisj.
  by rewrite Z.shiftl_mul_pow2.
Qed.

Lemma lor_80 (x : Z) : 0 ≤ x < 128 → Z.lor 0x80 x = 128 + x.
Proof. intros Hx. change 0x80 with (Z.shiftl 1 7). by rewrite lor_shiftl_add. Qed.

Lemma lor_C0 (x : Z) : 0 ≤ x < 64 → Z.lor 0xC0 x = 192 + x.
Proof. intros Hx. change 0xC0 with (Z.shiftl 3 6). by rewrite lor_shiftl_add. Qed.

Lemma lor_E0 (x : Z) : 0 ≤ x < 32 → Z.lor 0xE0 x = 224 + x.
Proof. intros Hx. change 0xE0 with (Z.shiftl 7 5). by rewrite lor_shiftl_add. Qed.

Lemma lor_F0 (x : Z) : 0 ≤ x < 16 → Z.lor 0xF0 x = 240 + x.
Proof. intros Hx. change 0xF0 with (Z.shiftl 15 4). by rewrite lor_shiftl_add. Qed.

Lemma land_3F (x : Z) : Z.land x 0x3F = x mod 64.
Proof. change 0x3F with (Z.ones 6). by rewrite Z.land_ones. Qed.

Lemma continuation_byte (x : Z) : Z.lor 0x80 (Z.land x 0x3F) = 128 + x mod 64.
Proof. rewrite land_3F. apply lor_80. pose proof (Z.mod_pos_bound x 64). lia. Qed.

Lemma shiftr_6 (x : Z) : Z.shiftr x 6 = x / 64.
Proof. by rewrite Z.shiftr_div_pow2. Qed.

Lemma shiftr_12 (x : Z) : Z.shiftr x 12 = x / 4096.
Proof. by rewrite Z.shiftr_div_pow2. Qed.

Lemma shiftr_18 (x : Z) : Z.shiftr x 18 = x / 262144.
Proof. by rewrite Z.shiftr_div_pow2. Qed.

(** The encoder with its bit operations carried out. *)
Lemma utf8_char_arith (c : Z) :
  utf8_char c =
    if negb (encodable c) then []
    else if c <? 0x80 then [c]
    else if c <? 0x800 then [192 + c / 64; 128 + c mod 64]
    else if c <? 0x10000 then [224 + c / 4096; 128 + (c / 64) mod 64; 128 + c mod 64]
    else [240 + c / 262144; 128 + (c / 4096) mod 64; 128 + (c / 64) mod 64; 128 + c mod 64].
Proof.
  unfold utf8_char, encodable.
  rewrite !continuation_byte, shiftr_6, shiftr_12, shiftr_18.
  destruct (Z.ltb_spec c 0); [by rewrite (proj2 (Z.leb_gt 0 c))|].
  rewrite (proj2 (Z.leb_le 0 c)) by lia.
  destruct (Z.ltb_spec c 0x80).
  { rewrite (proj2 (Z.ltb_lt c 0x110000)), (proj2 (Z.leb_gt 0xD800 c)) by lia. done. }
  destruct (Z.ltb_spec c 0x800).
  { rewrite (proj2 (Z.ltb_lt c 0x110000)), (proj2 (Z.leb_gt 0xD800 c)) by lia.
    cbn [andb negb]. rewrite lor_C0 by (Z.div_mod_to_equations; lia). done. }
  destruct (Z.leb_spec 0xD800 c); destruct (Z.leb_spec c 0xDFFF); cbn [andb negb].
  - by rewrite (proj2 (Z.ltb_lt c 0x110000)) by lia.
  - destruct (Z.ltb_spec c 0x10000).
    + rewrite (proj2 (Z.ltb_lt c 0x110000)) by lia. cbn [andb negb].
      rewrite lor_E0 by (Z.div_mod_to_equations; lia). done.
    + destruct (Z.ltb_spec c 0x110000); cbn [andb negb]; [|done].
      rewrite lor_F0 by (Z.div_mod_to_equations; lia). done.
  - destruct (Z.ltb_spec c 0x10000); [|lia].
    rewrite (proj2 (Z.ltb_lt c 0x110000)) by lia. cbn [andb negb].
    rewrite lor_E0 by (Z.div_mod_to_equations; lia). done.
  - lia.
Qed.

Lemma utf8_char_bytes (c : Z) : Forall is_byte (utf8_char c).
Proof.
  rewrite utf8_char_arith. unfold is_byte.
  destruct (negb (encodable c)) eqn:Henc; [constructor|].
  apply negb_false_iff in Henc. unfold encodable in Henc.
  apply andb_prop in Henc as [Hrange _]. apply andb_prop in Hrange as [Hlo Hhi].
  apply Z.leb_le in Hlo. apply Z.ltb_lt in Hhi.
  destruct (Z.ltb_spec c 0x80); [repeat constructor; lia|].
  destruct (Z.ltb_spec c 0x800); [repeat constructor; Z.div_mod_to_equations; lia|].
  destruct (Z.ltb_spec c 0x10000); repeat constructor; Z.div_mod_to_equations; lia.
Qed.

Lemma encode_bytes (s : pystr) : Forall is_byte (encode s).
Proof.
  unfold encode. induction s as [|c s IH]; [constructor|].
  cbn [flat_map]. apply Forall_app. split; [apply utf8_char_bytes|exact IH].
Qed.

Lemma encoded_block_bytes (texts : list pystr) : Forall is_byte (encoded_block texts).
Proof.
  unfold encoded_block. induction texts as [|t ts IH]; [constructor|].
  cbn [flat_map]. apply Forall_app. split; [apply encode_bytes|exact IH].
Qed.

Lemma pointer_table_bytes (dist : Z) (raws : list Z) :
  Forall is_byte (flat_map (pointer_bytes dist) raws).
Proof.
  induction raws as [|r rs IH]; [constructor|].
  cbn [flat_map]. apply Forall_app. split; [|exact IH].
  unfold pointer_bytes, emitted. repeat constructor; apply land_FF_range.
Qed.

(** X1: the byte counter kept beside the bytearray never drifts from it:
    the returned total is the length of the returned block, and the block
    is the records' encodings one after the other. *)
Theorem byte_counter_is_block_length (texts : list pystr) (start dist : Z) :
  ∃ enc total table,
    encodeTextsAndPointers texts start dist = Ok (enc, total, table)
    ∧ total = len enc
    ∧ enc = flat_map (λ text, encode (slice_init text) ++ encode (slice_last text)) texts
    ∧ enc = flat_map encode texts.
Proof.
  eexists _, _, _. split; [apply encodeTextsAndPointers_eq|].
  split; [done|]. split; [|done].
  unfold encoded_block. induction texts as [|t ts IH]; [done|].
  cbn [flat_map]. by rewrite encode_slices, IH.
Qed.

(** X2: both returned bytearrays hold bytes only, whatever the records and
    the two offsets are. *)
Theorem outputs_are_bytes (texts : list pystr) (start dist : Z) :
  ∃ enc total table,
    encodeTextsAndPointers texts start dist = Ok (enc, total, table)
    ∧ Forall is_byte enc
    ∧ Forall is_byte table.
Proof.
  eexists _, _, _. split; [apply encodeTextsAndPointers_eq|]. split.
  - apply encoded_block_bytes.
  - apply pointer_table_bytes.
Qed.

(** ** Records side by side *)

Lemma record_starts_app (start : Z) (l k : list pystr) :
  ∀ total : Z,
    record_starts start total (l ++ k)
    = record_starts start total l
      ++ record_starts start (total + len (encoded_block l)) k.
Proof.
  unfold encoded_block.
  induction l as [|t ts IH]; intros total.
  - unfold len. simpl. by rewrite Z.add_0_r.
  - cbn [app record_starts flat_map]. rewrite IH, len_app. do 3 f_equal. lia.
Qed.

Lemma record_starts_shift (start shift : Z) (k : list pystr) :
  ∀ total : Z, record_starts (start + shift) total k = record_starts start (shift + total) k.
Proof.
  induction k as [|t ts IH]; intros total; [done|].
  cbn [record_starts]. rewrite IH. f_equal; [lia|f_equal; lia].
Qed.

(** X3: records can be encoded in two batches. Encoding [more] with the
    start offset moved past the block of [texts] gives the second part of
    what encoding [texts ++ more] gives: blocks and pointer tables
    concatenate, byte counts add up. *)
Theorem encode_in_two_batches (texts more : list pystr) (start dist : Z) :
  ∃ enc1 total1 table1 enc2 total2 table2,
    encodeTextsAndPointers texts start dist = Ok (enc1, total1, table1)
    ∧ encodeTextsAndPointers more (start + total1) dist = Ok (enc2, total2, table2)
    ∧ encodeTextsAndPointers (texts ++ more) start dist
      = Ok (enc1 ++ enc2, total1 + total2, table1 ++ table2).
Proof.
  eexists _, _, _, _, _, _. rewrite !encodeTextsAndPointers_eq.
  split; [reflexivity|]. split; [reflexivity|].
  rewrite encoded_block_app, len_app, record_starts_app, flat_map_app.
  by rewrite record_starts_shift, Z.add_0_l, Z.add_0_r.
Qed.

Lemma encoded_block_lookup (texts : list pystr) (i : nat) (t : pystr) :
  texts !! i = Some t →
  encoded_block texts
  = encoded_block (take i texts) ++ encode t ++ encoded_block (drop (S i) texts).
Proof.
  intros Hi. rewrite <- (take_drop_middle texts i t Hi) at 1.
  by rewrite encoded_block_app.
Qed.

Lemma bytes_before_to_nat (texts : list pystr) (i : nat) :
  Z.to_nat (bytes_before texts i) = length (encoded_block (take i texts)).
Proof. unfold bytes_before, len. apply Nat2Z.id. Qed.

(** X4: a pointer leads to its record. For a record whose corrected
    pointer fits in 16 bits, the decoded pointer minus the start offset is
    the position in the Encoded Block at which exactly that record's bytes
    lie. *)
Theorem pointer_locates_record (texts : list pystr) (start dist : Z) (i : nat) (t : pystr) :
  texts !! i = Some t →
  0 ≤ corrected texts start dist i ≤ 0xFFFF →
  ∃ enc total table p,
    encodeTextsAndPointers texts start dist = Ok (enc, total, table)
    ∧ decode_pointer table i dist = Some p
    ∧ take (length (encode t)) (drop (Z.to_nat (p - start)) enc) = encode t.
Proof.
  intros Hi Hrange. eexists _, _, _, _.
  split; [apply encodeTextsAndPointers_eq|].
  split; [apply decode_pointer_table; by eapply lookup_lt_Some|].
  rewrite Z.mod_small by lia. rewrite corrected_eq.
  replace (start + bytes_before texts i - dist + dist - start)
    with (bytes_before texts i) by lia.
  rewrite bytes_before_to_nat, (encoded_block_lookup texts i t Hi).
  by rewrite drop_app_length, take_app_length.
Qed.

Lemma pointer_locates_record_witness :
  ∃ enc total table p,
    encodeTextsAndPointers [str "Hi!"; str "Bye."] TEXTSTARTOFFSET POINTERSDISTANCE
    = Ok (enc, total, table)
    ∧ decode_pointer table 1 POINTERSDISTANCE = Some p
    ∧ take (length (encode (str "Bye."))) (drop (Z.to_nat (p - TEXTSTARTOFFSET)) enc)
      = encode (str "Bye.").
Proof.
  apply (pointer_locates_record [str "Hi!"; str "Bye."]
           TEXTSTARTOFFSET POINTERSDISTANCE 1 (str "Bye.")).
  - reflexivity.
  - vm_compute. split; discriminate.
Defined.

Lemma pointer_bytes_mod (dist raw : Z) :
  pointer_bytes dist raw
  = [((raw - dist) mod 65536) mod 256; ((raw - dist) mod 65536) / 256].
Proof.
  unfold pointer_bytes. rewrite emitted_reverse_bytes.
  f_equal; [|f_equal]; Z.div_mod_to_equations; lia.
Qed.

Lemma pointer_table_congruent (texts : list pystr) (start dist start' dist' : Z) :
  (start - dist) mod 65536 = (start' - dist') mod 65536 →
  ∀ total : Z,
    flat_map (pointer_bytes dist) (record_starts start total texts)
    = flat_map (pointer_bytes dist') (record_starts start' total texts).
Proof.
  intros Hmod. induction texts as [|t ts IH]; intros total; [done|].
  cbn [record_starts flat_map]. rewrite IH, !pointer_bytes_mod.
  replace (start + total - dist) with ((start - dist) + total) by lia.
  replace (start' + total - dist') with ((start' - dist') + total) by lia.
  rewrite (Z.add_mod (start - dist)), (Z.add_mod (start' - dist')) by lia.
  by rewrite Hmod.
Qed.

(** X5: only the difference of the two offsets, modulo 2^16, reaches the
    output. Two calls whose [textStartOffset - pointersDistance] agree
    modulo 65536 return the same block, count and pointer table. *)
Theorem output_depends_on_offset_difference
        (texts : list pystr) (start dist start' dist' : Z) :
  (start - dist) mod 65536 = (start' - dist') mod 65536 →
  encodeTextsAndPointers texts start dist = encodeTextsAndPointers texts start' dist'.
Proof.
  intros Hmod. rewrite !encodeTextsAndPointers_eq.
  by rewrite (pointer_table_congruent texts start dist start' dist' Hmod).
Qed.

Lemma output_depends_on_offset_difference_witness :
  encodeTextsAndPointers [str "Hi!"; str "Bye."] TEXTSTARTOFFSET POINTERSDISTANCE
  = encodeTextsAndPointers [str "Hi!"; str "Bye."] 0x806B 0.
Proof.
  apply (output_depends_on_offset_difference [str "Hi!"; str "Bye."]
           TEXTSTARTOFFSET POINTERSDISTANCE 0x806B 0).
  reflexivity.
Defined.

(** ** UTF-8 is lossless on what it keeps *)

Lemma utf8_char_unencodable (c : Z) : encodable c = false → utf8_char c = [].
Proof. intros Hc. rewrite utf8_char_arith. by rewrite Hc. Qed.

Lemma utf8_decode_char (c : Z) (rest : list Z) :
  encodable c = true → utf8_decode (utf8_char c ++ rest) = c :: utf8_decode rest.
Proof.
  intros Hc. rewrite utf8_char_arith, Hc. cbn [negb].
  unfold encodable in Hc.
  apply andb_prop in Hc as [Hrange _]. apply andb_prop in Hrange as [Hlo Hhi].
  apply Z.leb_le in Hlo. apply Z.ltb_lt in Hhi.
  destruct (Z.ltb_spec c 0x80) as [H1|H1].
  { cbn [app utf8_decode]. by rewrite (proj2 (Z.ltb_lt c 0x80)). }
  destruct (Z.ltb_spec c 0x800) as [H2|H2].
  { cbn [app utf8_decode].
    rewrite (proj2 (Z.ltb_ge (192 + c / 64) 0x80)) by (Z.div_mod_to_equations; lia).
    rewrite (proj2 (Z.ltb_lt (192 + c / 64) 0xE0)) by (Z.div_mod_to_equations; lia).
    f_equal. Z.div_mod_to_equations. lia. }
  destruct (Z.ltb_spec c 0x10000) as [H3|H3].
  { cbn [app utf8_decode].
    rewrite (proj2 (Z.ltb_ge (224 + c / 4096) 0x80)) by (Z.div_mod_to_equations; lia).
    rewrite (proj2 (Z.ltb_ge (224 + c / 4096) 0xE0)) by (Z.div_mod_to_equations; lia).
    rewrite (proj2 (Z.ltb_lt (224 + c / 4096) 0xF0)) by (Z.div_mod_to_equations; lia).
    f_equal. Z.div_mod_to_equations. lia. }
  cbn [app utf8_decode].
  rewrite (proj2 (Z.ltb_ge (240 + c / 262144) 0x80)) by (Z.div_mod_to_equations; lia).
  rewrite (proj2 (Z.ltb_ge (240 + c / 262144) 0xE0)) by (Z.div_mod_to_equations; lia).
  rewrite (proj2 (Z.ltb_ge (240 + c / 262144) 0xF0)) by (Z.div_mod_to_equations; lia).
  f_equal. Z.div_mod_to_equations. lia.
Qed.

Lemma utf8_decode_flat_map (s : pystr) :
  utf8_decode (flat_map utf8_char s) = filter (λ c, Is_true (encodable c)) s.
Proof.
  induction s as [|c s IH]; [done|].
  cbn [flat_map]. destruct (encodable c) eqn:Hc.
  - rewrite utf8_decode_char by exact Hc.
    rewrite filter_cons_True by (by apply Is_true_true_2). by rewrite IH.
  - rewrite utf8_char_unencodable by exact Hc.
    rewrite filter_cons_False by (by apply Is_true_false_2). exact IH.
Qed.

(** X6: what [encode] emits decodes back to the string without the
    characters that [errors='ignore'] dropped; nothing else is lost or
    altered. *)
Theorem utf8_decode_encode (s : pystr) :
  utf8_decode (encode s) = filter (λ c, Is_true (encodable c)) s.
Proof. unfold encode. apply utf8_decode_flat_map. Qed.

(** X7: on strings of encodable characters [encode] is injective: two
    such records with the same bytes are the same record. *)
Theorem encode_injective (s t : pystr) :
  Forall (λ c, encodable c = true) s →
  Forall (λ c, encodable c = true) t →
  encode s = encode t → s = t.
Proof.
  intros Hs Ht Heq.
  assert (∀ u, Forall (λ c, encodable c = true) u →
               filter (λ c, Is_true (encodable c)) u = u) as Hid.
  { induction 1 as [|c u Hc _ IH]; [done|].
    rewrite filter_cons_True by (by apply Is_true_true_2). by rewrite IH. }
  rewrite <- (Hid s Hs), <- (Hid t Ht), <- !utf8_decode_flat_map.
  unfold encode in Heq. by rewrite Heq.
Qed.

Lemma encode_injective_witness : str "Hi!" = str "Hi!".
Proof.
  apply (encode_injective (str "Hi!") (str "Hi!")).
  - repeat constructor.
  - repeat constructor.
  - reflexivity.
Defined.

(** * Further properties of characterReplacer *)

Lemma replacement_values_not_keys :
  map_Forall (λ _ v, replacement_dict !! v = None) replacement_dict.
Proof.
  set (P := λ (_ v : Z), replacement_dict !! v = None).
  unfold replacement_dict. cbn [list_to_map foldr uncurry fst snd].
  repeat (apply map_Forall_insert_2; [subst P; vm_compute; reflexivity|]).
  apply map_Forall_empty.
Qed.

Lemma dict_get_not_key (c : Z) :
  replacement_dict !! (dict_get replacement_dict c c) = None.
Proof.
  unfold dict_get. destruct (replacement_dict !! c) as [v|] eqn:Hc; [|exact Hc].
  exact (replacement_values_not_keys c v Hc).
Qed.

Lemma replace_text_id (text : pystr) :
  Forall (λ c, replacement_dict !! c = None) text → replace_text text = text.
Proof.
  unfold replace_text. induction 1 as [|c text Hc _ IH]; [done|].
  cbn [fmap list_fmap]. unfold dict_get at 1. rewrite Hc. f_equal. exact IH.
Qed.

Lemma replace_text_no_key (text : pystr) :
  Forall (λ c, replacement_dict !! c = None) (replace_text text).
Proof.
  unfold replace_text. induction text as [|c text IH]; [constructor|].
  cbn [fmap list_fmap]. constructor; [apply dict_get_not_key|exact IH].
Qed.

(** X8: no character of the table is left in the output of
    [characterReplacer]: whatever the input, no output character is a key
    of [replacement_dict]. *)
Theorem characterReplacer_removes_keys (textList : list pystr) :
  Forall (Forall (λ c, replacement_dict !! c = None)) (characterReplacer textList).
Proof.
  unfold characterReplacer. induction textList as [|t ts IH]; [constructor|].
  cbn [fmap list_fmap]. constructor; [apply replace_text_no_key|exact IH].
Qed.

(** X9: replacing twice is replacing once: no replacement character is
    itself a key, so a second pass finds nothing to do. *)
Theorem characterReplacer_idempotent (textList : list pystr) :
  characterReplacer (characterReplacer textList) = characterReplacer textList.
Proof.
  unfold characterReplacer. induction textList as [|t ts IH]; [done|].
  cbn [fmap list_fmap]. rewrite IH. f_equal.
  apply replace_text_id, replace_text_no_key.
Qed.

Lemma length_char_bytes_latin1 (c : Z) :
  0 ≤ c < 256 →
  length (char_bytes c)
  = if decide (0x80 ≤ c ∧ replacement_dict !! c = None) then 2%nat else 1%nat.
Proof.
  intros Hc. unfold char_bytes.
  destruct (replacement_dict !! c) as [v|] eqn:Hkey.
  - rewrite decide_False by (intros [_ ?]; discriminate). done.
  - rewrite utf8_char_arith.
    assert (encodable c = true) as ->.
    { unfold encodable. rewrite (proj2 (Z.leb_le 0 c)), (proj2 (Z.ltb_lt c 0x110000)),
        (proj2 (Z.leb_gt 0xD800 c)) by lia. done. }
    cbn [negb]. destruct (Z.ltb_spec c 0x80).
    + rewrite decide_False by lia. done.
    + rewrite (proj2 (Z.ltb_lt c 0x800)), decide_True by (try split; lia || done). done.
Qed.

Lemma latin1_record_length_aux (text : list Z) :
  Forall (λ c, 0 ≤ c < 256) text →
  len (encode (replace_text text))
  = len text + len (filter (λ c, 0x80 ≤ c ∧ replacement_dict !! c = None) text)
  ∧ len text ≤ len (encode (replace_text text)) ≤ 2 * len text.
Proof.
  intros Htext. rewrite encode_replace_text. unfold len.
  induction Htext as [|c text Hc _ IH]; [done|].
  cbn [flat_map]. rewrite length_app, length_char_bytes_latin1 by exact Hc.
  rewrite filter_cons. destruct (decide (0x80 ≤ c ∧ replacement_dict !! c = None));
    cbn [length]; lia.
Qed.

(** X10: the size of a record read from a Latin-1 file. Each character
    becomes one byte, except a non-ASCII character outside the table,
    which becomes two; so a record never takes fewer bytes than it has
    characters, nor more than twice as many. *)
Theorem latin1_record_length (text : pystr) :
  Forall (λ c, 0 ≤ c < 256) text →
  len (encode (replace_text text))
  = len text + len (filter (λ c, 0x80 ≤ c ∧ replacement_dict !! c = None) text)
  ∧ len text ≤ len (encode (replace_text text)) ≤ 2 * len text.
Proof. apply latin1_record_length_aux. Qed.

Lemma latin1_record_length_witness :
  len (encode (replace_text [0xBF; 81; 117; 0xE9; 0xFC; 63]))
  = len [0xBF; 81; 117; 0xE9; 0xFC; 63]
    + len (filter (λ c, 0x80 ≤ c ∧ replacement_dict !! c = None)
                  [0xBF; 81; 117; 0xE9; 0xFC; 63])
  ∧ len [0xBF; 81; 117; 0xE9; 0xFC; 63]
    ≤ len (encode (replace_text [0xBF; 81; 117; 0xE9; 0xFC; 63]))
    ≤ 2 * len [0xBF; 81; 117; 0xE9; 0xFC; 63].
Proof.
  apply (latin1_record_length [0xBF; 81; 117; 0xE9; 0xFC; 63]).
  repeat constructor; lia.
Defined.

(** * Properties of writeROM and of the patched ROM *)

Lemma length_file_write (f : list Z) (pos : nat) (data : list Z) :
  length (file_write f pos data)
  = if decide (length data = 0)%nat then length f
    else (length f `max` (pos + length data))%nat.
Proof.
  unfold file_write. destruct data as [|d ds]; [done|].
  rewrite decide_False by done.
  rewrite !length_app, length_take, length_replicate, length_drop. lia.
Qed.

Lemma file_write_prefix (f : list Z) (pos : nat) :
  length (take pos f ++ replicate (pos - length f) 0) = pos.
Proof. rewrite length_app, length_take, length_replicate. lia. Qed.

(** What one position of the file holds after a write. *)
Lemma lookup_file_write (f : list Z) (pos : nat) (data : list Z) (i : nat) :
  file_write f pos data !! i
  = if decide (i < pos)%nat
    then (if decide (i < length f)%nat then f !! i
          else if decide (length data = 0)%nat then None else Some 0)
    else if decide (i < pos + length data)%nat then data !! (i - pos)%nat
         else f !! i.
Proof.
  unfold file_write. destruct data as [|d ds].
  { cbn [length]. repeat case_decide; try done; try lia.
    apply lookup_ge_None_2. lia. }
  rewrite (decide_False (P := (length (d :: ds) = 0)%nat)) by done.
  rewrite app_assoc.
  pose proof (file_write_prefix f pos) as Hpre.
  destruct (decide (i < pos)%nat) as [Hlt|Hge].
  - rewrite lookup_app_l by lia.
    destruct (decide (i < length f)%nat).
    + rewrite lookup_app_l by (rewrite length_take; lia).
      by rewrite lookup_take_lt.
    + rewrite lookup_app_r by (rewrite length_take; lia).
      apply lookup_replicate_2. rewrite length_take. lia.
  - rewrite lookup_app_r by lia. rewrite Hpre.
    destruct (decide (i < pos + length (d :: ds))%nat).
    + by rewrite lookup_app_l by lia.
    + rewrite lookup_app_r, lookup_drop by lia. f_equal. lia.
Qed.

Lemma file_write_read_back (f : list Z) (pos : nat) (data : list Z) :
  take (length data) (drop pos (file_write f pos data)) = data.
Proof.
  unfold file_write. destruct data as [|d ds]; [done|]. rewrite app_assoc.
  rewrite drop_app_length' by (symmetry; apply file_write_prefix).
  by rewrite take_app_length.
Qed.

Lemma writeROM_rom_cases (romFile : string) (startOffset : Z) (data : list Z) (w : world) :
  rom (writeROM romFile startOffset data w).2 = rom w
  ∨ rom (writeROM romFile startOffset data w).2
    = file_write (rom w) (Z.to_nat startOffset) data.
Proof.
  unfold writeROM. destruct (startOffset <? 0); [by left|].
  destruct (2 ^ 63 <=? startOffset); [by left|by right].
Qed.



(** X12: [writeROM] patches in place. When the written range lies inside
    the file, the file keeps its length and every byte outside the range
    keeps its value: nothing is truncated, shifted or inserted. *)
Theorem writeROM_in_place (romFile : string) (startOffset : Z) (data : list Z) (w : world) :
  0 ≤ startOffset →
  startOffset + len data ≤ len (rom w) →
  let rom' := rom (writeROM romFile startOffset data w).2 in
  length rom' = length (rom w)
  ∧ ∀ i : nat,
      (i < Z.to_nat startOffset ∨ Z.to_nat startOffset + length data ≤ i)%nat →
      rom' !! i = rom w !! i.
Proof.
  intros Hpos Hfit rom'. subst rom'. unfold len in Hfit.
  destruct (writeROM_rom_cases romFile startOffset data w) as [-> | ->]; [done|].
  split.
  - rewrite length_file_write. case_decide; lia.
  - intros i Hi. rewrite lookup_file_write.
    repeat case_decide; try done; lia.
Qed.

Lemma writeROM_in_place_witness :
  let rom' := rom (writeROM "exodus.nes" 2 [7; 8] (World [] [1; 2; 3; 4; 5])).2 in
  length rom' = length (rom (World [] [1; 2; 3; 4; 5]))
  ∧ ∀ i : nat,
      (i < Z.to_nat 2 ∨ Z.to_nat 2 + length [7; 8] ≤ i)%nat →
      rom' !! i = rom (World [] [1; 2; 3; 4; 5]) !! i.
Proof.
  apply (writeROM_in_place "exodus.nes" 2 [7; 8] (World [] [1; 2; 3; 4; 5])).
  - lia.
  - vm_compute. discriminate.
Defined.

(** ** Two writes *)

Lemma double_write_first (f : list Z) (p1 p2 : nat) (d1 d2 : list Z) :
  (p1 + length d1 ≤ p2)%nat →
  take (length d1) (drop p1 (file_write (file_write f p1 d1) p2 d2)) = d1.
Proof.
  intros Hgap. apply list_eq. intros i.
  rewrite lookup_take, lookup_drop, !lookup_file_write, length_file_write.
  repeat case_decide; try lia.
  - f_equal. lia.
  - symmetry. apply lookup_ge_None_2. lia.
Qed.

Lemma double_write_outside (f : list Z) (p1 p2 : nat) (d1 d2 : list Z) (i : nat) :
  (i < length f)%nat →
  (i < p1 ∨ p1 + length d1 ≤ i)%nat →
  (i < p2 ∨ p2 + length d2 ≤ i)%nat →
  file_write (file_write f p1 d1) p2 d2 !! i = f !! i.
Proof.
  intros Hi H1 H2. rewrite !lookup_file_write, length_file_write.
  repeat case_decide; try done; lia.
Qed.

Lemma double_write_idempotent (f : list Z) (p1 p2 : nat) (d1 d2 : list Z) :
  let g := file_write (file_write f p1 d1) p2 d2 in
  file_write (file_write g p1 d1) p2 d2 = g.
Proof.
  intros g. subst g. apply list_eq. intros i.
  rewrite !lookup_file_write, !length_file_write.
  repeat case_decide; try done; lia.
Qed.

Lemma slice_of_slice (l d : list Z) (a n b m : nat) :
  take n (drop a l) = d →
  (b + m ≤ n)%nat →
  take m (drop (a + b) l) = take m (drop b d).
Proof.
  intros <- Hfit. apply list_eq. intros i.
  rewrite !lookup_take, !lookup_drop, lookup_take.
  repeat case_decide; try done; try lia. by rewrite lookup_drop, Nat.add_assoc.
Qed.

Lemma main_patched (txtFile romFile : string) (lengthText : Z) (text : list pystr) (w : world) :
  len (encoded_block (characterReplacer text)) ≤ lengthText →
  main txtFile romFile lengthText text w
  = patched romFile text (lengthText - len (encoded_block (characterReplacer text))) w.
Proof. intros Hcap. rewrite main_eq. by rewrite bool_decide_eq_false_2 by lia. Qed.

Lemma length_pointer_table_text (text : list pystr) :
  length (pointer_table text) = (2 * length text)%nat.
Proof.
  unfold pointer_table. rewrite length_pointer_table.
  unfold characterReplacer. by rewrite length_fmap.
Qed.

Lemma patched_rom_holds_block_and_table_aux
      (txtFile romFile : string) (lengthText : Z) (text : list pystr) (w : world) :
  len (encoded_block (characterReplacer text)) ≤ lengthText →
  len (encoded_block (characterReplacer text)) ≤ POINTERSSTARTOFFSET - TEXTSTARTOFFSET →
  take (length (encoded_block (characterReplacer text)))
       (drop (Z.to_nat TEXTSTARTOFFSET) (rom (main txtFile romFile lengthText text w).2))
  = encoded_block (characterReplacer text)
  ∧ take (length (pointer_table text))
         (drop (Z.to_nat POINTERSSTARTOFFSET) (rom (main txtFile romFile lengthText text w).2))
    = pointer_table text.
Proof.
  intros Hcap Hgap. rewrite main_patched by exact Hcap. unfold patched. cbn [snd rom].
  split.
  - apply double_write_first.
    unfold len, POINTERSSTARTOFFSET, TEXTSTARTOFFSET in *. lia.
  - apply file_write_read_back.
Qed.

(** X13: a run that passes the capacity check leaves both outputs in the
    ROM, provided the block ends before the pointer table begins (at most
    0x4479 bytes): the block is read back at [TEXTSTARTOFFSET] and the
    table at [POINTERSSTARTOFFSET]. *)
Theorem patched_rom_holds_block_and_table
        (txtFile romFile : string) (lengthText : Z) (text : list pystr) (w : world) :
  let block := encoded_block (characterReplacer text) in
  len block ≤ lengthText →
  len block ≤ POINTERSSTARTOFFSET - TEXTSTARTOFFSET →
  let run := main txtFile romFile lengthText text w in
  run.1 = Ok tt
  ∧ take (length block) (drop (Z.to_nat TEXTSTARTOFFSET) (rom run.2)) = block
  ∧ take (length (pointer_table text)) (drop (Z.to_nat POINTERSSTARTOFFSET) (rom run.2))
    = pointer_table text.
Proof.
  intros block Hcap Hgap run. subst run block.
  split; [by rewrite main_patched by exact Hcap|].
  by apply patched_rom_holds_block_and_table_aux.
Qed.

Lemma patched_rom_holds_block_and_table_witness :
  let block := encoded_block (characterReplacer [str "Hi!"; str "Bye."]) in
  let run := main "texts.txt" "exodus.nes" 100 [str "Hi!"; str "Bye."] (World [] []) in
  run.1 = Ok tt
  ∧ take (length block) (drop (Z.to_nat TEXTSTARTOFFSET) (rom run.2)) = block
  ∧ take (length (pointer_table [str "Hi!"; str "Bye."]))
         (drop (Z.to_nat POINTERSSTARTOFFSET) (rom run.2))
    = pointer_table [str "Hi!"; str "Bye."].
Proof.
  apply (patched_rom_holds_block_and_table "texts.txt" "exodus.nes" 100
           [str "Hi!"; str "Bye."] (World [] [])).
  - vm_compute. discriminate.
  - vm_compute. discriminate.
Defined.

Lemma bytes_before_le (texts : list pystr) (i : nat) (t : pystr) :
  texts !! i = Some t →
  0 ≤ bytes_before texts i
  ∧ bytes_before texts i + len (encode t) ≤ len (encoded_block texts).
Proof.
  intros Hi. rewrite (encoded_block_lookup texts i t Hi).
  unfold bytes_before, len. rewrite !length_app. lia.
Qed.

(** X14: in the patched ROM every pointer leads to its record. After a
    run that passes the capacity check, with the block ending before the
    pointer table, entry [i] of the table stored in the ROM decodes to a
    file offset, and the bytes of the ROM at that offset are the encoding
    of record [i] after substitution. *)
Theorem patched_rom_pointer_locates_record
        (txtFile romFile : string) (lengthText : Z) (text : list pystr) (w : world)
        (i : nat) (t : pystr) :
  let block := encoded_block (characterReplacer text) in
  len block ≤ lengthText →
  len block ≤ POINTERSSTARTOFFSET - TEXTSTARTOFFSET →
  text !! i = Some t →
  let rom' := rom (main txtFile romFile lengthText text w).2 in
  let table := take (2 * length text) (drop (Z.to_nat POINTERSSTARTOFFSET) rom') in
  ∃ p,
    decode_pointer table i POINTERSDISTANCE = Some p
    ∧ take (length (encode (replace_text t))) (drop (Z.to_nat p) rom')
      = encode (replace_text t).
Proof.
  intros block Hcap Hgap Hi rom' table.
  destruct (patched_rom_holds_block_and_table_aux txtFile romFile lengthText text w
              Hcap Hgap) as [Hblock Htable].
  fold rom' in Hblock, Htable.
  assert (characterReplacer text !! i = Some (replace_text t)) as Hi'.
  { unfold characterReplacer. by rewrite list_lookup_fmap, Hi. }
  destruct (bytes_before_le _ _ _ Hi') as [Hlo Hhi]. fold block in Hhi.
  pose proof (Zle_0_nat (length (encode (replace_text t)))) as Hlen.
  fold (len (encode (replace_text t))) in Hlen.
  exists (TEXTSTARTOFFSET + bytes_before (characterReplacer text) i). split.
  - subst table. rewrite <- length_pointer_table_text, Htable.
    unfold pointer_table. rewrite decode_pointer_table by (by eapply lookup_lt_Some).
    rewrite corrected_eq, Z.mod_small; [f_equal; lia|].
    unfold TEXTSTARTOFFSET, POINTERSSTARTOFFSET, POINTERSDISTANCE in *. lia.
  - rewrite Z2Nat.inj_add by (unfold TEXTSTARTOFFSET; lia).
    rewrite (slice_of_slice rom' block _ (length block) _ _ Hblock)
      by (unfold len in Hhi; lia).
    rewrite bytes_before_to_nat. subst block.
    rewrite (encoded_block_lookup _ i _ Hi') at 1.
    by rewrite drop_app_length, take_app_length.
Qed.

Lemma patched_rom_pointer_locates_record_witness :
  let rom' := rom (main "texts.txt" "exodus.nes" 100 [str "Hi!"; str "Bye."]
                        (World [] [])).2 in
  let table := take (2 * length [str "Hi!"; str "Bye."])
                    (drop (Z.to_nat POINTERSSTARTOFFSET) rom') in
  ∃ p,
    decode_pointer table 1 POINTERSDISTANCE = Some p
    ∧ take (length (encode (replace_text (str "Bye.")))) (drop (Z.to_nat p) rom')
      = encode (replace_text (str "Bye.")).
Proof.
  apply (patched_rom_pointer_locates_record "texts.txt" "exodus.nes" 100
           [str "Hi!"; str "Bye."] (World [] []) 1 (str "Bye.")).
  - vm_compute. discriminate.
  - vm_compute. discriminate.
  - reflexivity.
Defined.

(** X15: a run patches the ROM in place. When both written ranges lie
    inside the ROM, a run that passes the capacity check keeps the length
    of the ROM and the value of every byte outside the block's range and
    the table's range. *)
Theorem patched_rom_untouched_elsewhere
        (txtFile romFile : string) (lengthText : Z) (text : list pystr) (w : world) :
  let block := encoded_block (characterReplacer text) in
  len block ≤ lengthText →
  TEXTSTARTOFFSET + len block ≤ len (rom w) →
  POINTERSSTARTOFFSET + len (pointer_table text) ≤ len (rom w) →
  let rom' := rom (main txtFile romFile lengthText text w).2 in
  length rom' = length (rom w)
  ∧ ∀ i : nat,
      (i < Z.to_nat TEXTSTARTOFFSET ∨ Z.to_nat TEXTSTARTOFFSET + length block ≤ i)%nat →
      (i < Z.to_nat POINTERSSTARTOFFSET
       ∨ Z.to_nat POINTERSSTARTOFFSET + length (pointer_table text) ≤ i)%nat →
      rom' !! i = rom w !! i.
Proof.
  intros block Hcap Hfit1 Hfit2 rom'. subst rom'.
  rewrite main_patched by exact Hcap. unfold patched. cbn [snd rom]. fold block.
  unfold len in Hfit1, Hfit2.
  assert (0 ≤ TEXTSTARTOFFSET ∧ 0 ≤ POINTERSSTARTOFFSET) as [HT HP] by done.
  split.
  - rewrite !length_file_write. repeat case_decide; lia.
  - intros i H1 H2. destruct (decide (i < length (rom w))%nat) as [Hi|Hi].
    + by apply double_write_outside.
    + rewrite (lookup_ge_None_2 (rom w)) by lia.
      apply lookup_ge_None_2. rewrite !length_file_write. repeat case_decide; lia.
Qed.

Lemma patched_rom_untouched_elsewhere_witness :
  let w := World [] (replicate (Z.to_nat 0x18010) 0xFF) in
  let block := encoded_block (characterReplacer [str "Hi!"; str "Bye."]) in
  let rom' := rom (main "texts.txt" "exodus.nes" 100 [str "Hi!"; str "Bye."] w).2 in
  length rom' = length (rom w)
  ∧ ∀ i : nat,
      (i < Z.to_nat TEXTSTARTOFFSET ∨ Z.to_nat TEXTSTARTOFFSET + length block ≤ i)%nat →
      (i < Z.to_nat POINTERSSTARTOFFSET
       ∨ Z.to_nat POINTERSSTARTOFFSET + length (pointer_table [str "Hi!"; str "Bye."]) ≤ i)%nat →
      rom' !! i = rom w !! i.
Proof.
  intros w.
  apply (patched_rom_untouched_elsewhere "texts.txt" "exodus.nes" 100
           [str "Hi!"; str "Bye."] w).
  - vm_compute. discriminate.
  - subst w. cbn [rom].
    change (len (encoded_block (characterReplacer [str "Hi!"; str "Bye."]))) with 7.
    unfold len. rewrite length_replicate. unfold TEXTSTARTOFFSET. lia.
  - subst w. cbn [rom]. unfold len. rewrite length_replicate, length_pointer_table_text.
    unfold POINTERSSTARTOFFSET. cbn [length]. lia.
Defined.

(** X16: running the script again on the ROM it has just patched, with
    the same text file, leaves the ROM as it is; also when the first run
    stopped at the capacity check, and also when block and pointer table
    overlap. *)
Theorem second_run_changes_nothing
        (txtFile romFile : string) (lengthText : Z) (text : list pystr) (w : world) :
  let w1 := (main txtFile romFile lengthText text w).2 in
  rom (main txtFile romFile lengthText text w1).2 = rom w1.
Proof.
  intros w1. subst w1. rewrite !main_eq.
  case_bool_decide; [reflexivity|].
  unfold patched. cbn [snd rom]. apply double_write_idempotent.
Qed.

Lemma double_write_first_prefix (f : list Z) (p1 p2 : nat) (d1 d2 : list Z) :
  (p1 ≤ p2)%nat →
  take (p2 - p1) (take (length d1) (drop p1 (file_write (file_write f p1 d1) p2 d2)))
  = take (p2 - p1) d1.
Proof.
  intros Hle. apply list_eq. intros i.
  rewrite !lookup_take, lookup_drop, !lookup_file_write, length_file_write.
  repeat case_decide; try done; try lia.
  - f_equal. lia.
  - symmetry. apply lookup_ge_None_2. lia.
Qed.

(** X19: the pointer table is written last and wins. After any run that
    passes the capacity check the table is read back whole at
    [POINTERSSTARTOFFSET], however long the block is; of the block, the
    bytes in front of the table are intact, so a block longer than 0x4479
    bytes loses its tail to the table although the capacity check let it
    through. *)
Theorem pointer_table_written_last
        (txtFile romFile : string) (lengthText : Z) (text : list pystr) (w : world) :
  let block := encoded_block (characterReplacer text) in
  len block ≤ lengthText →
  let rom' := rom (main txtFile romFile lengthText text w).2 in
  let gap := Z.to_nat (POINTERSSTARTOFFSET - TEXTSTARTOFFSET) in
  take (length (pointer_table text)) (drop (Z.to_nat POINTERSSTARTOFFSET) rom')
  = pointer_table text
  ∧ take gap (take (length block) (drop (Z.to_nat TEXTSTARTOFFSET) rom')) = take gap block.
Proof.
  intros block Hcap rom' gap. subst rom' gap.
  rewrite main_patched by exact Hcap. unfold patched. cbn [snd rom]. fold block.
  split; [apply file_write_read_back|].
  replace (Z.to_nat (POINTERSSTARTOFFSET - TEXTSTARTOFFSET))
    with (Z.to_nat POINTERSSTARTOFFSET - Z.to_nat TEXTSTARTOFFSET)%nat
    by (unfold POINTERSSTARTOFFSET, TEXTSTARTOFFSET; lia).
  apply double_write_first_prefix.
  unfold POINTERSSTARTOFFSET, TEXTSTARTOFFSET. lia.
Qed.

Lemma pointer_table_written_last_witness :
  let block := encoded_block (characterReplacer [str "Hi!"; str "Bye."]) in
  let rom' := rom (main "texts.txt" "exodus.nes" 100 [str "Hi!"; str "Bye."]
                        (World [] [])).2 in
  let gap := Z.to_nat (POINTERSSTARTOFFSET - TEXTSTARTOFFSET) in
  take (length (pointer_table [str "Hi!"; str "Bye."]))
       (drop (Z.to_nat POINTERSSTARTOFFSET) rom')
  = pointer_table [str "Hi!"; str "Bye."]
  ∧ take gap (take (length block) (drop (Z.to_nat TEXTSTARTOFFSET) rom')) = take gap block.
Proof.
  apply (pointer_table_written_last "texts.txt" "exodus.nes" 100
           [str "Hi!"; str "Bye."] (World [] [])).
  vm_compute. discriminate.
Defined.

(** * Properties of readTextFile *)

(** ** Newlines and lines *)

Lemma universal_newlines_Forall (P : Z → Prop) (s : list Z) :
  P 10 → Forall P s → Forall P (universal_newlines s).
Proof.
  intros H10.
  enough (∀ s, (Forall P s → Forall P (universal_newlines s))
               ∧ ∀ c, Forall P (c :: s) → Forall P (universal_newlines (c :: s)))
    as Hboth by apply Hboth.
  clear s. induction s as [|d s [IH1 IH2]].
  - split; [done|]. intros c Hc. cbn [universal_newlines].
    destruct (c =? 13); repeat constructor; [done|by inversion Hc].
  - split; [apply IH2|]. intros c Hc. inversion Hc as [|? ? HPc Hds]; subst.
    cbn [universal_newlines]. fold (universal_newlines (d :: s)).
    destruct (c =? 13).
    + constructor; [done|]. destruct (d =? 10).
      * apply IH1. by inversion Hds.
      * by apply IH2.
    + constructor; [done|]. by apply IH2.
Qed.

Lemma universal_newlines_no_cr (s : list Z) : Forall (λ c, c ≠ 13) (universal_newlines s).
Proof.
  enough (∀ s, Forall (λ c, c ≠ 13) (universal_newlines s)
               ∧ ∀ c, Forall (λ c, c ≠ 13) (universal_newlines (c :: s)))
    as Hboth by apply Hboth.
  clear s. induction s as [|d s [IH1 IH2]].
  - split; [constructor|]. intros c. cbn [universal_newlines].
    destruct (Z.eqb_spec c 13); repeat constructor; done.
  - split; [apply IH2|]. intros c.
    cbn [universal_newlines]. fold (universal_newlines (d :: s)).
    destruct (Z.eqb_spec c 13).
    + constructor; [done|]. destruct (d =? 10); [apply IH1|apply IH2].
    + constructor; [done|apply IH2].
Qed.

(** A line is a body without newline, followed by a newline or, for the
    last line only, by nothing. *)
Lemma lines_from_shape (P : Z → Prop) (s : list Z) :
  ∀ cur : list Z,
    Forall (λ c, c ≠ 10 ∧ P c) cur →
    Forall P s →
    Forall (λ l, ∃ body, (l = body ++ [10] ∨ l = body) ∧ Forall (λ c, c ≠ 10 ∧ P c) body)
           (lines_from cur s).
Proof.
  induction s as [|c s IH]; intros cur Hcur Hs; cbn [lines_from].
  - destruct cur as [|c0 cur']; [constructor|]. repeat constructor.
    exists (c0 :: cur'). auto.
  - inversion Hs as [|? ? HPc Hs']; subst.
    destruct (Z.eqb_spec c 10) as [->|Hne].
    + constructor; [exists cur; auto|]. apply IH; [constructor|done].
    + apply IH; [|done]. apply Forall_app. split; [done|]. repeat constructor; done.
Qed.

(** ** strip *)

Lemma lstrip_drop (s : list Z) : ∃ k, lstrip s = drop k s.
Proof.
  induction s as [|c s [k IH]]; [by exists 0%nat|].
  cbn [lstrip]. destruct (isspace c); [by exists (S k)|by exists 0%nat].
Qed.

Lemma lstrip_head (s : list Z) (c : Z) : head (lstrip s) = Some c → isspace c = false.
Proof.
  induction s as [|d s IH]; [done|]. cbn [lstrip].
  destruct (isspace d) eqn:Hd; [exact IH|]. cbn [head]. by intros [= <-].
Qed.

Lemma rstrip_take (s : list Z) : ∃ k, rstrip s = take k s.
Proof.
  unfold rstrip. destruct (lstrip_drop (reverse s)) as [k ->].
  rewrite reverse_drop, reverse_involutive. eauto.
Qed.

Lemma strip_Forall (P : Z → Prop) (s : list Z) : Forall P s → Forall P (strip s).
Proof.
  intros Hs. unfold strip.
  destruct (rstrip_take (lstrip s)) as [k ->]. apply Forall_take.
  destruct (lstrip_drop s) as [j ->]. by apply Forall_drop.
Qed.

Lemma strip_head (s : list Z) (c : Z) : head (strip s) = Some c → isspace c = false.
Proof.
  unfold strip. destruct (rstrip_take (lstrip s)) as [k ->].
  intros Hc. apply (lstrip_head s).
  destruct k, (lstrip s); done.
Qed.

Lemma strip_last (s : list Z) (c : Z) : last (strip s) = Some c → isspace c = false.
Proof. unfold strip, rstrip. rewrite last_reverse. apply lstrip_head. Qed.

Lemma lstrip_app (a b : list Z) :
  lstrip (a ++ b) = match lstrip a with [] => lstrip b | _ :: _ => lstrip a ++ b end.
Proof.
  induction a as [|c a IH]; [done|].
  cbn [app lstrip]. destruct (isspace c); [exact IH|done].
Qed.

Lemma rstrip_snoc_space (s : list Z) (c : Z) :
  isspace c = true → rstrip (s ++ [c]) = rstrip s.
Proof. intros Hc. unfold rstrip. rewrite reverse_snoc. cbn [lstrip]. by rewrite Hc. Qed.

Lemma strip_snoc_space (s : list Z) (c : Z) :
  isspace c = true → strip (s ++ [c]) = strip s.
Proof.
  intros Hc. unfold strip. rewrite lstrip_app. cbn [lstrip]. rewrite Hc.
  destruct (lstrip s) as [|d r]; [done|]. by rewrite rstrip_snoc_space.
Qed.

Lemma readTextFile_texts (int : list Z → option Z) (txt : list Z)
      (out : list read_message) (value : Z) (texts : list (list Z)) :
  readTextFile int txt = (out, Ok (value, texts)) →
  out = [] ∧ int (hd [] (file_lines txt)) = Some value
  ∧ texts = strip <$> tl (file_lines txt).
Proof.
  unfold readTextFile. destruct (int (hd [] (file_lines txt))); [|discriminate].
  by intros [= <- <- <-].
Qed.

Lemma file_lines_shape (P : Z → Prop) (txt : list Z) :
  Forall P (universal_newlines txt) →
  Forall (λ l, ∃ body, (l = body ++ [10] ∨ l = body)
                       ∧ Forall (λ c, c ≠ 10 ∧ P c) body)
         (file_lines txt).
Proof. intros Htxt. unfold file_lines. by apply lines_from_shape; [constructor|]. Qed.

Lemma stripped_lines (P : Z → Prop) (txt : list Z) :
  Forall P (universal_newlines txt) →
  Forall (Forall (λ c, c ≠ 10 ∧ P c)) (strip <$> tl (file_lines txt)).
Proof.
  intros Htxt. apply Forall_fmap.
  pose proof (file_lines_shape P txt Htxt) as Hshape.
  assert (Forall (λ l, ∃ body, (l = body ++ [10] ∨ l = body)
                               ∧ Forall (λ c, c ≠ 10 ∧ P c) body)
                 (tl (file_lines txt))) as Htl.
  { destruct (file_lines txt); [done|]. by inversion Hshape. }
  eapply Forall_impl; [exact Htl|].
  intros l (body & [-> | ->] & Hbody); cbn.
  - rewrite strip_snoc_space by done. by apply strip_Forall.
  - by apply strip_Forall.
Qed.

(** X17: no line terminator and no surrounding blank reaches the encoder.
    In every record that [readTextFile] returns there is no line feed and
    no carriage return, and neither the first nor the last character is
    whitespace; so the last character, which the encoder takes as the
    breaker, is a visible character of the line. *)
Theorem readTextFile_records_stripped
        (int : list Z → option Z) (txt : list Z)
        (out : list read_message) (value : Z) (texts : list (list Z)) :
  readTextFile int txt = (out, Ok (value, texts)) →
  Forall (λ t, Forall (λ c, c ≠ 10 ∧ c ≠ 13) t
               ∧ (∀ c, head t = Some c → isspace c = false)
               ∧ (∀ c, last t = Some c → isspace c = false)) texts.
Proof.
  intros Hread. apply readTextFile_texts in Hread as (_ & _ & ->).
  pose proof (stripped_lines (λ c, c ≠ 13) txt (universal_newlines_no_cr txt)) as Hchars.
  rewrite Forall_lookup in Hchars. apply Forall_lookup. intros i t Ht.
  split; [by eapply Hchars|].
  apply list_lookup_fmap_Some in Ht as (l & -> & _).
  split; intros c; [apply strip_head|apply strip_last].
Qed.

Lemma readTextFile_records_stripped_witness :
  Forall (λ t, Forall (λ c, c ≠ 10 ∧ c ≠ 13) t
               ∧ (∀ c, head t = Some c → isspace c = false)
               ∧ (∀ c, last t = Some c → isspace c = false))
         [str "Hi!"; str "Bye."].
Proof.
  apply (readTextFile_records_stripped digits_int
           (str "100" ++ [10] ++ str " Hi! " ++ [13; 10] ++ str "Bye.")
           [] 100 [str "Hi!"; str "Bye."]).
  vm_compute. reflexivity.
Defined.

Lemma latin1_block_length (texts : list (list Z)) :
  Forall (Forall (λ c, 0 ≤ c < 256)) texts →
  len (concat texts) ≤ len (encoded_block (characterReplacer texts)) ≤ 2 * len (concat texts).
Proof.
  unfold characterReplacer, encoded_block.
  induction 1 as [|t ts Ht _ IH]; [done|].
  cbn [fmap list_fmap flat_map concat]. rewrite !len_app.
  pose proof (latin1_record_length_aux t Ht) as [_ Hrec]. lia.
Qed.

(** X18: from a Latin-1 file to the block. Every character of the records
    that [readTextFile] returns is a code point below 256, and the Encoded
    Block built from them has at least as many bytes as the records have
    characters and at most twice as many. *)
Theorem readTextFile_latin1_block
        (int : list Z → option Z) (txt : list Z)
        (out : list read_message) (value : Z) (texts : list (list Z)) :
  Forall is_byte txt →
  readTextFile int txt = (out, Ok (value, texts)) →
  Forall (Forall (λ c, 0 ≤ c < 256)) texts
  ∧ len (concat texts) ≤ len (encoded_block (characterReplacer texts))
    ≤ 2 * len (concat texts).
Proof.
  intros Htxt Hread. apply readTextFile_texts in Hread as (_ & _ & ->).
  assert (Forall (Forall (λ c, 0 ≤ c < 256)) (strip <$> tl (file_lines txt))) as Hlatin.
  { eapply Forall_impl;
      [apply (stripped_lines is_byte txt); by apply universal_newlines_Forall|].
    intros t Ht. eapply Forall_impl; [exact Ht|]. by intros c [_ Hc]. }
  split; [exact Hlatin|]. by apply latin1_block_length.
Qed.

Lemma readTextFile_latin1_block_witness :
  Forall (Forall (λ c, 0 ≤ c < 256)) [str "Hi!"; [0xBF; 81; 117; 0xE9; 0xFC; 63]]
  ∧ len (concat [str "Hi!"; [0xBF; 81; 117; 0xE9; 0xFC; 63]])
    ≤ len (encoded_block (characterReplacer [str "Hi!"; [0xBF; 81; 117; 0xE9; 0xFC; 63]]))
    ≤ 2 * len (concat [str "Hi!"; [0xBF; 81; 117; 0xE9; 0xFC; 63]]).
Proof.
  apply (readTextFile_latin1_block digits_int
           (str "100" ++ [10] ++ str " Hi! " ++ [13; 10] ++ [0xBF; 81; 117; 0xE9; 0xFC; 63])
           [] 100 [str "Hi!"; [0xBF; 81; 117; 0xE9; 0xFC; 63]]).
  - unfold is_byte. apply (bool_decide_unpack _). vm_compute. exact I.
  - vm_compute. reflexivity.
Defined.
